(** * Rich-text command listener of [useRichTextSetup.js]

    A shallow embedding of
    [packages/lexical-react/src/shared/useRichTextSetup.js]: the seed
    paragraph helpers ([shouldSelectParagraph], [initParagraph],
    [initEditor], [clearEditor]) and the command listener installed by
    [useRichTextSetup].

    The listener runs inside an editor update.  It reads and writes the
    active editor state (node map and selection), may throw, calls
    [preventDefault] on the keyboard event it is handed, and re-enters
    the dispatcher through [editor.execCommand].  All of this is kept
    explicit: a state-and-exception monad with an append-only trace of
    host effects, and open recursion through [execCommand]. *)

From Stdlib Require Import ZArith String List Lia.
From stdpp Require Import base option list gmap strings.
Import ListNotations.

Local Open Scope Z_scope.
Local Open Scope string_scope.

(** ** Values handed around by the JavaScript code *)

(** A JavaScript string is a sequence of UTF-16 code units; [s[i]] reads
    one code unit. *)
Abbreviation code_unit := N (only parsing).
Abbreviation jsstring := (list N) (only parsing).

(** The code unit of ['\t']. *)
Definition tab : code_unit := 9%N.

Record KeyboardEvent := mkKeyboardEvent {
  event_id : N;
  shiftKey : bool
}.

(** Command payloads are untyped at run time (the Flow annotations are
    erased). *)
Inductive value :=
| VUndefined
| VNull
| VBool (b : bool)
| VNumber (z : Z)
| VString (s : jsstring)
| VEvent (e : KeyboardEvent).

(** ** Document tree, selection, editor state *)

Abbreviation NodeKey := N (only parsing).

Inductive NodeType :=
| RootNode | ParagraphNode | HeadingNode | ListNode | ListItemNode
| QuoteNode | CodeNode | TextNode | LineBreakNode.

Record LexicalNode := mkNode {
  __type : NodeType;
  __parent : option NodeKey;
  __children : list NodeKey;
  __text : jsstring;
  __indent : Z
}.

Inductive PointType := text | element.

Record Point := mkPoint {
  key : NodeKey;
  offset : Z;
  type : PointType
}.

Record Selection := mkSelection {
  anchor : Point;
  focus : Point
}.

Record EditorState := mkEditorState {
  _nodeMap : gmap N LexicalNode;
  _selection : option Selection
}.

Abbreviation DomElement := N (only parsing).
Abbreviation Callback := N (only parsing).

Record LexicalEditor := mkEditor {
  _editorState : EditorState;
  _rootElement : option DomElement
}.

(** The part of [document] the file reads. *)
Record Document := mkDocument {
  activeElement : option DomElement
}.

(** The key under which the node map holds the root. *)
Definition rootKey : NodeKey := 0%N.

(** ** Effects *)

(** What the host can observe besides the editor state, in order. *)
Inductive Effect :=
| PreventDefault (e : KeyboardEvent)
| Log (entry : string)
| Commit (s : EditorState)
| OnUpdate (cb : Callback).

Inductive JsError := TypeError | InvariantError.

Inductive Outcome (A : Type) :=
| Ok (a : A)
| Throw (e : JsError)
| Diverged.
Arguments Ok {A} a.
Arguments Throw {A} e.
Arguments Diverged {A}.

(** One run of a computation: the effects it performed, how it ended,
    and the editor state it left (mutations made before a throw stay in
    the pending state, as in JavaScript). *)
Record Run (A : Type) := mkRun {
  effects : list Effect;
  outcome : Outcome A;
  state : EditorState
}.
Arguments mkRun {A} effects outcome state.
Arguments effects {A} r.
Arguments outcome {A} r.
Arguments state {A} r.

Definition M (A : Type) := EditorState -> Run A.

Definition ret {A} (a : A) : M A := fun s => mkRun [] (Ok a) s.

Definition bind {A B} (m : M A) (f : A -> M B) : M B := fun s =>
  let r := m s in
  match outcome r with
  | Ok a =>
      let r' := f a (state r) in
      mkRun (effects r ++ effects r') (outcome r') (state r')
  | Throw e => mkRun (effects r) (Throw e) (state r)
  | Diverged => mkRun (effects r) Diverged (state r)
  end.

Notation "'let*' x ':=' c1 'in' c2" := (bind c1 (fun x => c2))
  (at level 10, x name, c1 at level 100, c2 at level 200).
Notation "c1 ';;;' c2" := (bind c1 (fun _ => c2))
  (at level 100, c2 at level 200, right associativity).

Definition throw {A} (e : JsError) : M A := fun s => mkRun [] (Throw e) s.
Definition diverge {A} : M A := fun s => mkRun [] Diverged s.
Definition emit (e : Effect) : M unit := fun s => mkRun [e] (Ok tt) s.
Definition get : M EditorState := fun s => mkRun [] (Ok s) s.
Definition put (s' : EditorState) : M unit := fun _ => mkRun [] (Ok tt) s'.

(** [$log(entry)], imported from [lexical]: taken to record a debugging
    entry and nothing else. *)
Definition log (entry : string) : M unit := emit (Log entry).

(** A state transformer that may throw, run on the active state. *)
Definition liftOp (f : EditorState -> option EditorState) : M unit := fun s =>
  match f s with
  | Some s' => mkRun [] (Ok tt) s'
  | None => mkRun [] (Throw InvariantError) s
  end.

(** ** Node and selection primitives of the editor core

    The classes behind [$getSelection], [$getRoot], [ElementNode] and
    [Point] live in the [lexical] package, outside this file. *)

(** Modelled from the spec: [$getSelection()] reads the selection of the
    snapshot being written; [null] when there is none. *)
Definition getSelection : M (option Selection) :=
  fun s => mkRun [] (Ok (_selection s)) s.

(** Modelled from the spec: [$getNodeByKey] looks a key up in the node
    map of the current snapshot. *)
Definition getNodeByKey (k : NodeKey) : M (option LexicalNode) :=
  fun s => mkRun [] (Ok (_nodeMap s !! k)) s.

(** Modelled from the spec: a node reference is read through its key; a
    reference to a node that is not in the snapshot is an invariant
    violation and throws. *)
Definition getLatest (k : NodeKey) : M LexicalNode :=
  let* n := getNodeByKey k in
  match n with
  | Some n => ret n
  | None => throw InvariantError
  end.

(** Modelled from the spec: [point.getNode()] resolves the endpoint's
    node reference. *)
Definition getNode (p : Point) : M NodeKey :=
  getLatest (key p) ;;; ret (key p).

(** Modelled from the spec: [node.getParentOrThrow()] is the parent
    element; it "fails fatally" when there is none. *)
Definition getParentOrThrow (k : NodeKey) : M NodeKey :=
  let* n := getLatest k in
  match __parent n with
  | None => throw InvariantError
  | Some pk =>
      let* p := getNodeByKey pk in
      match p with
      | Some _ => ret pk
      | None => throw InvariantError
      end
  end.

(** Modelled from the spec: a block "accepts literal tab characters"
    when it has code-block semantics. *)
Definition acceptsTab (n : LexicalNode) : bool :=
  match __type n with CodeNode => true | _ => false end.

Definition canInsertTab (k : NodeKey) : M bool :=
  let* n := getLatest k in ret (acceptsTab n).

(** Modelled from the spec: each element node carries an [indent]
    level; [getIndent] reads it and [setIndent] stores the given
    level. *)
Definition getIndent (k : NodeKey) : M Z :=
  let* n := getLatest k in ret (__indent n).

Definition withIndent (indentLevel : Z) (n : LexicalNode) : LexicalNode :=
  mkNode (__type n) (__parent n) (__children n) (__text n) indentLevel.

Definition setIndent (k : NodeKey) (indentLevel : Z) : M unit :=
  let* n := getLatest k in
  fun s => mkRun [] (Ok tt)
    (mkEditorState (<[k := withIndent indentLevel n]> (_nodeMap s))
                   (_selection s)).

(** [event.shiftKey]: reading a property of [undefined] or [null]
    throws, of any other non-event value it yields [undefined]. *)
Definition get_shiftKey (payload : value) : M value :=
  match payload with
  | VUndefined | VNull => throw TypeError
  | VEvent e => ret (VBool (shiftKey e))
  | _ => ret VUndefined
  end.

(** [event.preventDefault()]: only an event has the method. *)
Definition preventDefault (payload : value) : M unit :=
  match payload with
  | VEvent e => emit (PreventDefault e)
  | _ => throw TypeError
  end.

(** JavaScript truthiness, for [if (event.shiftKey)]. *)
Definition truthy (v : value) : bool :=
  match v with
  | VUndefined | VNull => false
  | VBool b => b
  | VNumber z => negb (z =? 0)%Z
  | VString s => match s with [] => false | _ => true end
  | VEvent _ => true
  end.

(** [s[i]]: the code unit at index [i], [undefined] outside the
    string. *)
Definition charAt (s : jsstring) (i : Z) : option code_unit :=
  if (i <? 0)%Z then None else nth_error s (Z.to_nat i).

(** [character === '\t'] *)
Definition isTab (character : option code_unit) : bool :=
  match character with
  | Some c => (c =? tab)%N
  | None => false
  end.

(** The range-selection operations and event helpers the listener
    calls.  Their code is in [lexical], [lexical/events] and
    [lexical/selection]; the listener is verified against any
    implementation of them.  Each works on the selection of the active
    state; [None] stands for a thrown exception. *)
Class LexicalCore := {
  deleteCharacter : value -> EditorState -> option EditorState;
  deleteWord : value -> EditorState -> option EditorState;
  deleteLine : value -> EditorState -> option EditorState;
  insertText : value -> EditorState -> option EditorState;
  removeText : EditorState -> option EditorState;
  formatText : value -> EditorState -> option EditorState;
  setFormat : NodeKey -> value -> EditorState -> option EditorState;
  insertLineBreak : value -> EditorState -> option EditorState;
  insertParagraph : EditorState -> option EditorState;
  getTextContent : NodeKey -> EditorState -> jsstring;
  shouldOverrideDefaultCharacterSelection : bool -> EditorState -> bool;
  moveCharacter : value -> bool -> EditorState -> option EditorState
}.

(** Modelled from the spec: [$isElementNode(node)] holds of the
    container variants, not of text and line-break leaves. *)
Definition isElementNode (k : NodeKey) : M bool :=
  let* n := getLatest k in
  ret (match __type n with TextNode | LineBreakNode => false | _ => true end).

(** ** The command listener *)

Section CommandListener.
Context `{LexicalCore}.

(** [editor.execCommand], through which the listener re-dispatches. *)
Variable execCommand : string -> value -> M bool.

(** The expression both indent cases use to find the block:
    [anchor.type === 'element' ? anchor.getNode()
                               : anchor.getNode().getParentOrThrow()] *)
Definition parentBlockOf (anchor : Point) : M NodeKey :=
  match type anchor with
  | element => getNode anchor
  | text => let* node := getNode anchor in getParentOrThrow node
  end.

Definition commandListener (type_ : string) (payload : value) : M bool :=
  let* selection := getSelection in
  match selection with
  | None => ret false
  | Some selection =>
    if type_ =? "deleteCharacter" then
      liftOp (deleteCharacter payload) ;;; ret true
    else if type_ =? "deleteWord" then
      liftOp (deleteWord payload) ;;; ret true
    else if type_ =? "deleteLine" then
      liftOp (deleteLine payload) ;;; ret true
    else if type_ =? "insertText" then
      liftOp (insertText payload) ;;; ret true
    else if type_ =? "removeText" then
      liftOp removeText ;;; ret true
    else if type_ =? "formatText" then
      liftOp (formatText payload) ;;; ret true
    else if type_ =? "formatElement" then
      let* node := getNode (anchor selection) in
      let* isElement := isElementNode node in
      let* element_ := (if isElement then ret node
                        else getParentOrThrow node) in
      liftOp (setFormat element_ payload) ;;; ret true
    else if type_ =? "insertLineBreak" then
      liftOp (insertLineBreak payload) ;;; ret true
    else if type_ =? "insertParagraph" then
      liftOp insertParagraph ;;; ret true
    else if type_ =? "indentContent" then
      let anchor := anchor selection in
      let* parentBlock := parentBlockOf anchor in
      let* insertsTab := canInsertTab parentBlock in
      (if insertsTab then
         execCommand "insertText" (VString [tab]) ;;; ret tt
       else
         let* indent := getIndent parentBlock in
         if negb (indent =? 10)%Z then
           let* indent := getIndent parentBlock in
           setIndent parentBlock (indent + 1)
         else ret tt) ;;;
      ret true
    else if type_ =? "outdentContent" then
      let anchor := anchor selection in
      let* anchorNode := getNode anchor in
      let* parentBlock := parentBlockOf anchor in
      let* insertsTab := canInsertTab parentBlock in
      (if insertsTab then
         let* s := get in
         let textContent := getTextContent anchorNode s in
         let character := charAt textContent (offset anchor - 1) in
         if isTab character then
           execCommand "deleteCharacter" (VBool true) ;;; ret tt
         else ret tt
       else
         let* indent := getIndent parentBlock in
         if negb (indent =? 0)%Z then
           let* indent := getIndent parentBlock in
           setIndent parentBlock (indent - 1)
         else ret tt) ;;;
      ret true
    else if type_ =? "keyArrowLeft" then
      let* isHoldingShift := get_shiftKey payload in
      let* s := get in
      if shouldOverrideDefaultCharacterSelection true s then
        preventDefault payload ;;;
        liftOp (moveCharacter isHoldingShift true) ;;;
        ret true
      else ret false
    else if type_ =? "keyArrowRight" then
      let* isHoldingShift := get_shiftKey payload in
      let* s := get in
      if shouldOverrideDefaultCharacterSelection false s then
        preventDefault payload ;;;
        liftOp (moveCharacter isHoldingShift false) ;;;
        ret true
      else ret false
    else if type_ =? "keyBackspace" then
      preventDefault payload ;;;
      execCommand "deleteCharacter" (VBool true)
    else if type_ =? "keyDelete" then
      preventDefault payload ;;;
      execCommand "deleteCharacter" (VBool false)
    else if type_ =? "keyEnter" then
      preventDefault payload ;;;
      let* shift := get_shiftKey payload in
      if truthy shift then execCommand "insertLineBreak" VUndefined
      else execCommand "insertParagraph" VUndefined
    else if type_ =? "keyTab" then
      preventDefault payload ;;;
      let* shift := get_shiftKey payload in
      execCommand (if truthy shift then "outdentContent"
                   else "indentContent") VUndefined
    else ret false
  end.
End CommandListener.

(** Modelled from the spec: [editor.execCommand(type, payload)] hands
    the command to the handlers registered on the [command] channel
    until one returns [true], and returns whether one did.  Here the
    listener above is the only handler registered (the setup registers
    it at priority 0), so the dispatcher calls it, and the calls it
    makes to [editor.execCommand] come back to it.  [depth] bounds the
    nesting of re-dispatches. *)
Fixpoint execCommand `{LexicalCore} (depth : nat)
    (type_ : string) (payload : value) : M bool :=
  match depth with
  | O => diverge
  | S depth' => commandListener (execCommand depth') type_ payload
  end.

(** The deepest chain is keyTab, indentContent, insertText. *)
Definition maxDepth : nat := 3.

(** ** Transactions *)

(** What a call made from outside an update leaves behind. *)
Record Completed (A : Type) := mkCompleted {
  trace : list Effect;
  result : Outcome A;
  editor : LexicalEditor
}.
Arguments mkCompleted {A} trace result editor.
Arguments trace {A} c.
Arguments result {A} c.
Arguments editor {A} c.

(** Modelled from the spec: [editor.update(mutator, {onUpdate})] runs
    [mutator] on the current snapshot.  On normal return the new
    snapshot is committed and then the completion callback, if any, is
    invoked.  When the mutator throws, the snapshot in progress is
    discarded, the previous one stays current and the exception goes to
    the caller. *)
Definition update {A} (mutator : M A) (onUpdate : option Callback)
    (ed : LexicalEditor) : Completed A :=
  let r := mutator (_editorState ed) in
  match outcome r with
  | Ok a =>
      mkCompleted
        (effects r ++ Commit (state r) ::
           match onUpdate with Some cb => [OnUpdate cb] | None => [] end)
        (Ok a)
        (mkEditor (state r) (_rootElement ed))
  | Throw e => mkCompleted (effects r) (Throw e) ed
  | Diverged => mkCompleted (effects r) Diverged ed
  end.

(** Modelled from the spec: a command dispatched from outside runs its
    handler inside one transaction. *)
Definition dispatchCommand `{LexicalCore} (type_ : string) (payload : value)
    (ed : LexicalEditor) : Completed bool :=
  update (execCommand maxDepth type_ payload) None ed.

(** A sequence of dispatches, one transaction each. *)
Fixpoint dispatchAll `{LexicalCore} (commands : list (string * value))
    (ed : LexicalEditor) : LexicalEditor :=
  match commands with
  | [] => ed
  | (type_, payload) :: rest =>
      dispatchAll rest (editor (dispatchCommand type_ payload ed))
  end.

(** ** Seeding the document *)

(** Modelled from the spec: [$getRoot()] is the root node of the current
    snapshot. *)
Definition getRoot : M NodeKey :=
  let* n := getNodeByKey rootKey in
  match n with
  | Some _ => ret rootKey
  | None => throw TypeError
  end.

(** Modelled from the spec: [node.getFirstChild()] is the first of the
    element's ordered children, [null] when it has none. *)
Definition getFirstChild (k : NodeKey) : M (option NodeKey) :=
  let* n := getLatest k in
  match __children n with
  | [] => ret None
  | c :: _ =>
      let* child := getNodeByKey c in
      ret (match child with Some _ => Some c | None => None end)
  end.

Definition withChildren (children : list NodeKey) (n : LexicalNode)
    : LexicalNode :=
  mkNode (__type n) (__parent n) children (__text n) (__indent n).

Definition withParent (parent : option NodeKey) (n : LexicalNode)
    : LexicalNode :=
  mkNode (__type n) parent (__children n) (__text n) (__indent n).

(** Modelled from the spec: [root.clear()] "empties the root"; a removed
    node is detached from the tree together with everything below it.
    The selection object is left as it is. *)
Definition clear (k : NodeKey) : M unit :=
  let* n := getLatest k in
  fun s => mkRun [] (Ok tt)
    (mkEditorState
       (<[k := withChildren [] n]>
          (foldr (alter (withParent None)) (_nodeMap s) (__children n)))
       (_selection s)).

(** Modelled from the spec: [$createParagraphNode()] makes a new, empty
    paragraph that is not yet attached, under a key not in use. *)
Definition createParagraphNode : M NodeKey := fun s =>
  let k := fresh (dom (_nodeMap s)) in
  mkRun [] (Ok k)
    (mkEditorState
       (<[k := mkNode ParagraphNode None [] [] 0]> (_nodeMap s))
       (_selection s)).

(** Modelled from the spec: [parent.append(node)] makes a node that has
    no parent yet the last child of [parent]. *)
Definition append (k child : NodeKey) : M unit :=
  let* c := getLatest child in
  let* n := getLatest k in
  fun s => mkRun [] (Ok tt)
    (mkEditorState
       (<[k := withChildren (__children n ++ [child]) n]>
          (<[child := withParent (Some k) c]> (_nodeMap s)))
       (_selection s)).

(** Modelled from the spec: [element.select()] "places a collapsed
    selection inside" the element, after its last child. *)
Definition select (k : NodeKey) : M unit :=
  let* n := getLatest k in
  let p := mkPoint k (Z.of_nat (length (__children n))) element in
  fun s => mkRun [] (Ok tt)
    (mkEditorState (_nodeMap s) (Some (mkSelection p p))).

Section Seeding.
Variable document : Document.

Definition shouldSelectParagraph (ed : LexicalEditor) : M bool :=
  let activeElement := activeElement document in
  let* selection := getSelection in
  ret (match selection with Some _ => true | None => false end
       || match activeElement with
          | Some active =>
              match _rootElement ed with
              | Some rootElement => (active =? rootElement)%N
              | None => false
              end
          | None => false
          end).

Definition initParagraph (root : NodeKey) (ed : LexicalEditor) : M unit :=
  let* paragraph := createParagraphNode in
  append root paragraph ;;;
  let* should := shouldSelectParagraph ed in
  if should then select paragraph else ret tt.

Definition initEditor (ed : LexicalEditor) : Completed unit :=
  update
    (log "initEditor" ;;;
     let* root := getRoot in
     let* firstChild := getFirstChild root in
     match firstChild with
     | None => initParagraph root ed
     | Some _ => ret tt
     end)
    None ed.

Definition clearEditor (ed : LexicalEditor) (callbackFn : option Callback)
    : Completed unit :=
  update
    (log "clearEditor" ;;;
     let* root := getRoot in
     clear root ;;;
     initParagraph root ed)
    callbackFn ed.
End Seeding.

(** ** A small core for running the listener *)

Definition withText (t : jsstring) (n : LexicalNode) : LexicalNode :=
  mkNode (__type n) (__parent n) (__children n) t (__indent n).

(** The caret, when the selection is collapsed inside a text node that
    is in the snapshot: the node's key, the offset, the node. *)
Definition caret (s : EditorState) : option (NodeKey * nat * LexicalNode) :=
  match _selection s with
  | Some (mkSelection (mkPoint k o text) (mkPoint k' o' text)) =>
      if ((k =? k')%N && (o =? o')%Z && (0 <=? o)%Z)%bool then
        match _nodeMap s !! k with
        | Some n => Some (k, Z.to_nat o, n)
        | None => None
        end
      else None
  | _ => None
  end.

Definition caretAt (k : NodeKey) (i : nat) : option Selection :=
  let p := mkPoint k (Z.of_nat i) text in Some (mkSelection p p).

(** Modelled from the spec: [insertText] and [deleteCharacter] for a
    caret inside one text node.  Text goes in at the caret, which moves
    past it; a character is removed on the requested side of the caret,
    and the operation is a no-op when there is nothing to delete in that
    direction.  A payload of the wrong type fails fast.  Outside the
    caret case the state is left alone. *)
Definition caretInsertText (payload : value) (s : EditorState)
    : option EditorState :=
  match payload with
  | VString t =>
      match caret s with
      | Some (k, i, n) =>
          Some (mkEditorState
                  (<[k := withText (take i (__text n) ++ t ++ drop i (__text n))%list n]>
                     (_nodeMap s))
                  (caretAt k (i + length t)))
      | None => Some s
      end
  | _ => None
  end.

Definition caretDeleteCharacter (payload : value) (s : EditorState)
    : option EditorState :=
  match payload with
  | VBool isBackward =>
      match caret s with
      | Some (k, i, n) =>
          if isBackward then
            match i with
            | O => Some s
            | S j =>
                Some (mkEditorState
                        (<[k := withText (take j (__text n) ++ drop i (__text n))%list n]>
                           (_nodeMap s))
                        (caretAt k j))
            end
          else
            Some (mkEditorState
                    (<[k := withText (take i (__text n) ++ drop (S i) (__text n))%list n]>
                       (_nodeMap s))
                    (_selection s))
      | None => Some s
      end
  | _ => None
  end.

Definition caretCore : LexicalCore := {|
  deleteCharacter := caretDeleteCharacter;
  deleteWord := fun _ s => Some s;
  deleteLine := fun _ s => Some s;
  insertText := caretInsertText;
  removeText := fun s => Some s;
  formatText := fun _ s => Some s;
  setFormat := fun _ _ s => Some s;
  insertLineBreak := fun _ s => Some s;
  insertParagraph := fun s => Some s;
  getTextContent := fun k s =>
    match _nodeMap s !! k with Some n => __text n | None => [] end;
  shouldOverrideDefaultCharacterSelection := fun _ _ => false;
  moveCharacter := fun _ _ s => Some s
|}.

(** ** Sample documents *)

(** root(0) > code(1) > text(2) holding [text_], caret at [caretOffset]. *)
Definition codeDocument (text_ : jsstring) (caretOffset : nat) : EditorState :=
  mkEditorState
    (<[0%N := mkNode RootNode None [1%N] [] 0]>
       (<[1%N := mkNode CodeNode (Some 0%N) [2%N] [] 0]>
          (<[2%N := mkNode TextNode (Some 1%N) [] text_ 0]> ∅)))
    (caretAt 2%N caretOffset).

(** root(0) > paragraph(1) with the given indent > text(2) "a", caret at
    the start of the text. *)
Definition paragraphDocument (indent : Z) : EditorState :=
  mkEditorState
    (<[0%N := mkNode RootNode None [1%N] [] 0]>
       (<[1%N := mkNode ParagraphNode (Some 0%N) [2%N] [] indent]>
          (<[2%N := mkNode TextNode (Some 1%N) [] [97%N] 0]> ∅)))
    (caretAt 2%N 0).

(** A root without children and no selection. *)
Definition emptyDocument : EditorState :=
  mkEditorState (<[0%N := mkNode RootNode None [] [] 0]> ∅) None.

Definition shiftTab : KeyboardEvent := mkKeyboardEvent 1 true.
Definition plainKey : KeyboardEvent := mkKeyboardEvent 2 false.

(** The indent stored for a key, if the node is in the snapshot. *)
Definition indentOf (k : NodeKey) (s : EditorState) : option Z :=
  __indent <$> _nodeMap s !! k.

(** The data-model invariant [0 <= indent <= 10], for one node. *)
Definition indentInRange (k : NodeKey) (s : EditorState) : Prop :=
  match _nodeMap s !! k with
  | Some n => 0 <= __indent n <= 10
  | None => True
  end.

(** The snapshot after [setIndent] stored [indentLevel] on the node
    [n] kept under [k]. *)
Definition withIndentAt (k : NodeKey) (n : LexicalNode) (indentLevel : Z)
    (s : EditorState) : EditorState :=
  mkEditorState (<[k := withIndent indentLevel n]> (_nodeMap s)) (_selection s).

(** [activeElement !== null && activeElement === editor.getRootElement()] *)
Definition hostIsFocused (document : Document) (ed : LexicalEditor) : bool :=
  match activeElement document with
  | Some active =>
      match _rootElement ed with
      | Some rootElement => (active =? rootElement)%N
      | None => false
      end
  | None => false
  end.

(** The answer of [shouldSelectParagraph] on snapshot [s]. *)
Definition selectsParagraph (document : Document) (ed : LexicalEditor)
    (s : EditorState) : bool :=
  match _selection s with Some _ => true | None => false end
  || hostIsFocused document ed.

(** How deep a command re-dispatches when only this listener is
    registered. *)
Definition rank (type_ : string) : nat :=
  if type_ =? "keyTab" then 2
  else if (type_ =? "indentContent") || (type_ =? "outdentContent")
          || (type_ =? "keyBackspace") || (type_ =? "keyDelete")
          || (type_ =? "keyEnter") then 1
  else 0.

(** A computation that never runs out of depth. *)
Definition total {A} (m : M A) : Prop :=
  forall s, outcome (m s) <> Diverged.

(** What [getFirstChild] answers for the element [n] of snapshot [s]. *)
Definition firstChildOf (s : EditorState) (n : LexicalNode) : option N :=
  match __children n with
  | [] => None
  | c :: _ => match _nodeMap s !! c with Some _ => Some c | None => None end
  end.

(** The empty paragraph [$createParagraphNode] makes, once appended to
    [parent]. *)
Definition seedParagraph (parent : N) : LexicalNode :=
  mkNode ParagraphNode (Some parent) [] [] 0.

(** The snapshot after a fresh seed paragraph was appended to the
    element [n] kept under [root], with the selection set to
    [selection]. *)
Definition seeded (root : N) (n : LexicalNode) (selection : option Selection)
    (s : EditorState) : EditorState :=
  let paragraph := fresh (dom (_nodeMap s)) in
  mkEditorState
    (<[root := withChildren (__children n ++ [paragraph]) n]>
       (<[paragraph := seedParagraph root]> (_nodeMap s)))
    selection.

(** The collapsed selection [paragraph.select()] leaves in an empty
    paragraph. *)
Definition collapsedIn (paragraph : N) : Selection :=
  let p := mkPoint paragraph 0 element in mkSelection p p.

(** The snapshot after [clear] emptied the element [n] kept under
    [k]. *)
Definition cleared (k : N) (n : LexicalNode) (s : EditorState) : EditorState :=
  mkEditorState
    (<[k := withChildren [] n]>
       (foldr (alter (withParent None)) (_nodeMap s) (__children n)))
    (_selection s).

(** ** The rest of the file *)

(** The handlers of [lexical/events] the file subscribes, by name. *)
Inductive InputHandler :=
| onSelectionChange | onKeyDown | onCompositionStart | onCompositionEnd
| onCutForRichText | onCopyForRichText | onBeforeInput | onPasteForRichText
| onDropPolyfill | onDragStartPolyfill | onInput | onClick.

(** The [events] table: ten fixed entries, then [beforeinput] is pushed
    when [CAN_USE_BEFORE_INPUT] holds and [drop] otherwise. *)
Definition events (CAN_USE_BEFORE_INPUT : bool) : list (string * InputHandler) :=
  [("selectionchange", onSelectionChange);
   ("keydown", onKeyDown);
   ("compositionstart", onCompositionStart);
   ("compositionend", onCompositionEnd);
   ("cut", onCutForRichText);
   ("copy", onCopyForRichText);
   ("dragstart", onDragStartPolyfill);
   ("paste", onPasteForRichText);
   ("input", onInput);
   ("click", onClick)]
  ++ (if CAN_USE_BEFORE_INPUT then [("beforeinput", onBeforeInput)]
      else [("drop", onDropPolyfill)]).

(** The [case] labels of the listener's switch, in source order. *)
Definition commandTypes : list string :=
  ["deleteCharacter"; "deleteWord"; "deleteLine"; "insertText"; "removeText";
   "formatText"; "formatElement"; "insertLineBreak"; "insertParagraph";
   "indentContent"; "outdentContent"; "keyArrowLeft"; "keyArrowRight";
   "keyBackspace"; "keyDelete"; "keyEnter"; "keyTab"].

(** The cases that call [event.preventDefault()]. *)
Definition keyTypes : list string :=
  ["keyArrowLeft"; "keyArrowRight"; "keyBackspace"; "keyDelete"; "keyEnter";
   "keyTab"].

(** What the two guards do to an indent level: [indentContent] adds one
    unless the level is 10, [outdentContent] takes one off unless it is
    0; any other command leaves it. *)
Definition levelStep (level : Z) (type_ : string) : Z :=
  if type_ =? "indentContent" then
    if (level =? 10)%Z then level else level + 1
  else if type_ =? "outdentContent" then
    if (level =? 0)%Z then level else level - 1
  else level.

Definition levelAfter (commands : list (string * value)) (level : Z) : Z :=
  fold_left (fun z c => levelStep z (fst c)) commands level.

(** A computation without host effects. *)
Definition quiet {A} (m : M A) : Prop :=
  forall s, effects (m s) = [].

(** A computation whose only possible host effect is one
    [preventDefault] on the event it was handed. *)
Definition consumesOnly {A} (payload : value) (m : M A) : Prop :=
  forall s, effects (m s) = []
            \/ exists e, payload = VEvent e /\ effects (m s) = [PreventDefault e].

(** A computation that leaves the indent under [k] in range. *)
Definition keepsIndent {A} (k : N) (m : M A) : Prop :=
  forall s, indentInRange k s -> indentInRange k (state (m s)).

(** Every primitive of the core leaves indents in range. *)
Definition coreKeepsIndent `{LexicalCore} : Prop :=
  forall k s s', indentInRange k s ->
    (forall v, deleteCharacter v s = Some s' -> indentInRange k s')
    /\ (forall v, deleteWord v s = Some s' -> indentInRange k s')
    /\ (forall v, deleteLine v s = Some s' -> indentInRange k s')
    /\ (forall v, insertText v s = Some s' -> indentInRange k s')
    /\ (removeText s = Some s' -> indentInRange k s')
    /\ (forall v, formatText v s = Some s' -> indentInRange k s')
    /\ (forall e v, setFormat e v s = Some s' -> indentInRange k s')
    /\ (forall v, insertLineBreak v s = Some s' -> indentInRange k s')
    /\ (insertParagraph s = Some s' -> indentInRange k s')
    /\ (forall v b, moveCharacter v b s = Some s' -> indentInRange k s').

(** Whether a node is one of the container variants. *)
Definition isElement (n : LexicalNode) : bool :=
  match __type n with TextNode | LineBreakNode => false | _ => true end.

(** * Properties *)

(** ** Running monadic code *)

Lemma run_eta {A} (r : Run A) : mkRun (effects r) (outcome r) (state r) = r.
Proof. destruct r; reflexivity. Qed.

(** A step that only reads: no effect, no state change, no throw. *)
Lemma bind_read {A B} (m : M A) (f : A -> M B) s a :
  m s = mkRun [] (Ok a) s -> bind m f s = f a s.
Proof. intros E. unfold bind. rewrite E. simpl. apply run_eta. Qed.

Lemma bind_ok {A B} (m : M A) (f : A -> M B) s eff a s' :
  m s = mkRun eff (Ok a) s' ->
  bind m f s =
    mkRun (eff ++ effects (f a s')) (outcome (f a s')) (state (f a s')).
Proof. intros E. unfold bind. rewrite E. reflexivity. Qed.

Lemma bind_throw {A B} (m : M A) (f : A -> M B) s eff e s' :
  m s = mkRun eff (Throw e) s' -> bind m f s = mkRun eff (Throw e) s'.
Proof. intros E. unfold bind. rewrite E. reflexivity. Qed.

Lemma getLatest_Some k s n :
  _nodeMap s !! k = Some n -> getLatest k s = mkRun [] (Ok n) s.
Proof. intros E. unfold getLatest, bind, getNodeByKey. simpl. rewrite E. reflexivity. Qed.

Lemma bind_assoc {A B C} (m : M A) (f : A -> M B) (g : B -> M C) s :
  bind (bind m f) g s = bind m (fun a => bind (f a) g) s.
Proof.
  unfold bind. destruct (m s) as [eff [a|e|] s1]; simpl; try reflexivity.
  destruct (f a s1) as [eff2 [b|e|] s2]; simpl; try reflexivity.
  now rewrite app_assoc.
Qed.

Lemma bind_ret_then {A B C} (m : M A) (b : B) (c : C) s :
  bind (bind m (fun _ => ret b)) (fun _ => ret c) s
  = bind m (fun _ => ret c) s.
Proof.
  unfold bind, ret. destruct (m s) as [eff [a|e|] s1]; simpl; try reflexivity.
  now rewrite app_nil_r.
Qed.

Lemma bind_ext {A B} (m : M A) (f g : A -> M B) s :
  (forall a s', f a s' = g a s') -> bind m f s = bind m g s.
Proof. intros E. unfold bind. destruct (outcome (m s)); now rewrite ?E. Qed.

(** ** Resolving the parent block *)

Lemma getNode_Some p s n :
  _nodeMap s !! key p = Some n -> getNode p s = mkRun [] (Ok (key p)) s.
Proof.
  intros E. unfold getNode.
  now rewrite (bind_read _ _ s n) by now apply getLatest_Some.
Qed.

Lemma getLatest_None k s :
  _nodeMap s !! k = None -> getLatest k s = mkRun [] (Throw InvariantError) s.
Proof.
  intros E. unfold getLatest, bind, getNodeByKey. simpl. now rewrite E.
Qed.

Lemma getNode_None p s :
  _nodeMap s !! key p = None ->
  getNode p s = mkRun [] (Throw InvariantError) s.
Proof.
  intros E. unfold getNode.
  now rewrite (bind_throw _ _ s [] InvariantError s) by now apply getLatest_None.
Qed.

(** Resolution only reads, and what it returns is a node of the
    snapshot. *)
Lemma getParentOrThrow_reads k s :
  state (getParentOrThrow k s) = s /\ effects (getParentOrThrow k s) = [].
Proof.
  unfold getParentOrThrow, getLatest, getNodeByKey, bind, ret, throw. simpl.
  destruct (_nodeMap s !! k) as [n|]; simpl; [|done].
  destruct (__parent n) as [pk|]; simpl; [|done].
  destruct (_nodeMap s !! pk); simpl; done.
Qed.

Lemma getParentOrThrow_Ok k s pk :
  outcome (getParentOrThrow k s) = Ok pk -> is_Some (_nodeMap s !! pk).
Proof.
  unfold getParentOrThrow, getLatest, getNodeByKey, bind, ret, throw. simpl.
  destruct (_nodeMap s !! k) as [n|]; simpl; [|done].
  destruct (__parent n) as [pk'|]; simpl; [|done].
  destruct (_nodeMap s !! pk') eqn:E; simpl; [|done].
  intros [= <-]. eauto.
Qed.

Section Resolution.
Context `{LexicalCore}.

Lemma parentBlockOf_reads p s :
  state (parentBlockOf p s) = s /\ effects (parentBlockOf p s) = [].
Proof.
  unfold parentBlockOf. destruct (type p).
  - destruct (_nodeMap s !! key p) as [n|] eqn:E.
    + rewrite (bind_read _ _ s (key p)) by now apply (getNode_Some _ _ n).
      apply getParentOrThrow_reads.
    + now rewrite (bind_throw _ _ s [] InvariantError s)
        by now apply getNode_None.
  - destruct (_nodeMap s !! key p) as [n|] eqn:E.
    + now rewrite (getNode_Some _ _ n).
    + now rewrite getNode_None.
Qed.

Lemma parentBlockOf_Ok p s k :
  outcome (parentBlockOf p s) = Ok k ->
  parentBlockOf p s = mkRun [] (Ok k) s.
Proof.
  intros E. destruct (parentBlockOf_reads p s) as [Hs He].
  rewrite <- (run_eta (parentBlockOf p s)). now rewrite Hs, He, E.
Qed.

Lemma parentBlockOf_anchorNode p s k :
  outcome (parentBlockOf p s) = Ok k -> is_Some (_nodeMap s !! key p).
Proof.
  unfold parentBlockOf.
  destruct (_nodeMap s !! key p) as [n|] eqn:E; [eauto|].
  destruct (type p).
  - now rewrite (bind_throw _ _ s [] InvariantError s)
      by now apply getNode_None.
  - now rewrite getNode_None.
Qed.

Lemma parentBlockOf_in_snapshot p s k :
  outcome (parentBlockOf p s) = Ok k -> is_Some (_nodeMap s !! k).
Proof.
  intros E. destruct (parentBlockOf_anchorNode p s k E) as [n Hn].
  revert E. unfold parentBlockOf. destruct (type p).
  - rewrite (bind_read _ _ s (key p)) by now apply (getNode_Some _ _ n).
    apply getParentOrThrow_Ok.
  - rewrite (getNode_Some _ _ n) by done. simpl. intros [= <-]. eauto.
Qed.
End Resolution.

Section ListenerFacts.
Context `{LexicalCore}.
Variable execCommand' : string -> value -> M bool.

Lemma canInsertTab_run k s n :
  _nodeMap s !! k = Some n ->
  canInsertTab k s = mkRun [] (Ok (acceptsTab n)) s.
Proof.
  intros E. unfold canInsertTab.
  now rewrite (bind_read _ _ s n) by now apply getLatest_Some.
Qed.

Lemma getIndent_run k s n :
  _nodeMap s !! k = Some n -> getIndent k s = mkRun [] (Ok (__indent n)) s.
Proof.
  intros E. unfold getIndent.
  now rewrite (bind_read _ _ s n) by now apply getLatest_Some.
Qed.

Lemma setIndent_run k s n z :
  _nodeMap s !! k = Some n ->
  setIndent k z s = mkRun [] (Ok tt) (withIndentAt k n z s).
Proof.
  intros E. unfold setIndent.
  now rewrite (bind_read _ _ s n) by now apply getLatest_Some.
Qed.

Lemma getSelection_run s : getSelection s = mkRun [] (Ok (_selection s)) s.
Proof. reflexivity. Qed.

(** The switch, case by case, once the selection is known to be
    there. *)
Lemma listener_insertText payload s sel :
  _selection s = Some sel ->
  commandListener execCommand' "insertText" payload s
  = (liftOp (insertText payload) ;;; ret true) s.
Proof.
  intros E. unfold commandListener.
  rewrite (bind_read _ _ s (Some sel)) by now rewrite getSelection_run, E.
  reflexivity.
Qed.

Lemma listener_deleteCharacter payload s sel :
  _selection s = Some sel ->
  commandListener execCommand' "deleteCharacter" payload s
  = (liftOp (deleteCharacter payload) ;;; ret true) s.
Proof.
  intros E. unfold commandListener.
  rewrite (bind_read _ _ s (Some sel)) by now rewrite getSelection_run, E.
  reflexivity.
Qed.

Lemma listener_indentContent payload s sel k n :
  _selection s = Some sel ->
  outcome (parentBlockOf (anchor sel) s) = Ok k ->
  _nodeMap s !! k = Some n ->
  commandListener execCommand' "indentContent" payload s
  = if acceptsTab n then
      (execCommand' "insertText" (VString [tab]) ;;; ret true) s
    else
      mkRun [] (Ok true)
        (if (__indent n =? 10)%Z then s
         else withIndentAt k n (__indent n + 1) s).
Proof.
  intros E Hk Hn. unfold commandListener.
  rewrite (bind_read _ _ s (Some sel)) by now rewrite getSelection_run, E.
  transitivity
    ((let* parentBlock := parentBlockOf (anchor sel) in
      let* tabs := canInsertTab parentBlock in
      (if tabs then execCommand' "insertText" (VString [tab]) ;;; ret tt
       else
         let* indent := getIndent parentBlock in
         if negb (indent =? 10)%Z then
           let* indent := getIndent parentBlock in
           setIndent parentBlock (indent + 1)
         else ret tt) ;;;
      ret true) s); [reflexivity|].
  rewrite (bind_read _ _ s k) by now apply parentBlockOf_Ok.
  rewrite (bind_read _ _ s (acceptsTab n)) by now apply canInsertTab_run.
  destruct (acceptsTab n).
  - apply bind_ret_then.
  - rewrite bind_assoc.
    rewrite (bind_read _ _ s (__indent n)) by now apply getIndent_run.
    destruct (__indent n =? 10)%Z; simpl negb; cbv iota.
    + reflexivity.
    + rewrite bind_assoc.
      rewrite (bind_read _ _ s (__indent n)) by now apply getIndent_run.
      now rewrite (bind_ok _ _ s [] tt (withIndentAt k n (__indent n + 1) s))
        by now apply setIndent_run.
Qed.

Lemma listener_outdentContent payload s sel k n :
  _selection s = Some sel ->
  outcome (parentBlockOf (anchor sel) s) = Ok k ->
  _nodeMap s !! k = Some n ->
  commandListener execCommand' "outdentContent" payload s
  = if acceptsTab n then
      if isTab (charAt (getTextContent (key (anchor sel)) s)
                       (offset (anchor sel) - 1))
      then (execCommand' "deleteCharacter" (VBool true) ;;; ret true) s
      else mkRun [] (Ok true) s
    else
      mkRun [] (Ok true)
        (if (__indent n =? 0)%Z then s
         else withIndentAt k n (__indent n - 1) s).
Proof.
  intros E Hk Hn. unfold commandListener.
  rewrite (bind_read _ _ s (Some sel)) by now rewrite getSelection_run, E.
  transitivity
    ((let* anchorNode := getNode (anchor sel) in
      let* parentBlock := parentBlockOf (anchor sel) in
      let* tabs := canInsertTab parentBlock in
      (if tabs then
         let* s := get in
         let textContent := getTextContent anchorNode s in
         let character := charAt textContent (offset (anchor sel) - 1) in
         if isTab character then
           execCommand' "deleteCharacter" (VBool true) ;;; ret tt
         else ret tt
       else
         let* indent := getIndent parentBlock in
         if negb (indent =? 0)%Z then
           let* indent := getIndent parentBlock in
           setIndent parentBlock (indent - 1)
         else ret tt) ;;;
      ret true) s); [reflexivity|].
  destruct (parentBlockOf_anchorNode _ _ _ Hk) as [a Ha].
  rewrite (bind_read _ _ s (key (anchor sel))) by now apply (getNode_Some _ _ a).
  rewrite (bind_read _ _ s k) by now apply parentBlockOf_Ok.
  rewrite (bind_read _ _ s (acceptsTab n)) by now apply canInsertTab_run.
  destruct (acceptsTab n).
  - rewrite bind_assoc. rewrite (bind_read _ _ s s) by reflexivity.
    cbv zeta.
    destruct (isTab _).
    + apply bind_ret_then.
    + reflexivity.
  - rewrite bind_assoc.
    rewrite (bind_read _ _ s (__indent n)) by now apply getIndent_run.
    destruct (__indent n =? 0)%Z; simpl negb; cbv iota.
    + reflexivity.
    + rewrite bind_assoc.
      rewrite (bind_read _ _ s (__indent n)) by now apply getIndent_run.
      now rewrite (bind_ok _ _ s [] tt (withIndentAt k n (__indent n - 1) s))
        by now apply setIndent_run.
Qed.

Lemma listener_keyTab e s sel :
  _selection s = Some sel ->
  commandListener execCommand' "keyTab" (VEvent e) s
  = (emit (PreventDefault e) ;;;
     execCommand' (if shiftKey e then "outdentContent" else "indentContent")
                  VUndefined) s.
Proof.
  intros E. unfold commandListener.
  rewrite (bind_read _ _ s (Some sel)) by now rewrite getSelection_run, E.
  reflexivity.
Qed.

Lemma listener_keyEnter e s sel :
  _selection s = Some sel ->
  commandListener execCommand' "keyEnter" (VEvent e) s
  = (emit (PreventDefault e) ;;;
     execCommand' (if shiftKey e then "insertLineBreak" else "insertParagraph")
                  VUndefined) s.
Proof.
  intros E. unfold commandListener.
  rewrite (bind_read _ _ s (Some sel)) by now rewrite getSelection_run, E.
  destruct e as [i []]; reflexivity.
Qed.

Lemma listener_keyBackspace e s sel :
  _selection s = Some sel ->
  commandListener execCommand' "keyBackspace" (VEvent e) s
  = (emit (PreventDefault e) ;;; execCommand' "deleteCharacter" (VBool true)) s.
Proof.
  intros E. unfold commandListener.
  rewrite (bind_read _ _ s (Some sel)) by now rewrite getSelection_run, E.
  reflexivity.
Qed.

Lemma listener_keyDelete e s sel :
  _selection s = Some sel ->
  commandListener execCommand' "keyDelete" (VEvent e) s
  = (emit (PreventDefault e) ;;; execCommand' "deleteCharacter" (VBool false)) s.
Proof.
  intros E. unfold commandListener.
  rewrite (bind_read _ _ s (Some sel)) by now rewrite getSelection_run, E.
  reflexivity.
Qed.


Lemma listener_null_selection type_ payload s :
  _selection s = None ->
  commandListener execCommand' type_ payload s = mkRun [] (Ok false) s.
Proof.
  intros Hnull. unfold commandListener.
  rewrite (bind_read getSelection _ s None).
  - reflexivity.
  - unfold getSelection. now rewrite Hnull.
Qed.
End ListenerFacts.

(** C3.  Whatever the command type and the payload, and whatever
    [editor.execCommand] would do, the listener called while the
    selection is [null] returns [false], leaves the node map and the
    selection as they are, performs no effect and does not throw.  No
    case of the switch is reached; the same holds of a dispatch that
    goes through this listener only. *)
Theorem null_selection_unhandled `{LexicalCore}
    (exec : string -> value -> M bool) type_ payload s :
  _selection s = None ->
  commandListener exec type_ payload s = mkRun [] (Ok false) s
  /\ execCommand maxDepth type_ payload s = mkRun [] (Ok false) s.
Proof.
  intros Hnull. split; now apply listener_null_selection.
Qed.

Lemma null_selection_unhandled_witness :
  @commandListener caretCore (@execCommand caretCore 2) "keyEnter" VUndefined emptyDocument
  = mkRun [] (Ok false) emptyDocument.
Proof.
  apply (@null_selection_unhandled caretCore (@execCommand caretCore 2)
           "keyEnter" VUndefined emptyDocument).
  reflexivity.
Defined.

(** ** Dispatch with only this listener registered *)

Lemma bind_emit {B} (e : Effect) (f : unit -> M B) s :
  bind (emit e) f s
  = mkRun (e :: effects (f tt s)) (outcome (f tt s)) (state (f tt s)).
Proof. reflexivity. Qed.

Lemma bind_at {A B} (m m' : M A) (f : A -> M B) s :
  m s = m' s -> bind m f s = bind m' f s.
Proof. intros E. unfold bind. now rewrite E. Qed.

Lemma liftOp_then_Some {B} f (b : B) s s' :
  f s = Some s' -> (liftOp f ;;; ret b) s = mkRun [] (Ok b) s'.
Proof. intros E. unfold bind, liftOp. now rewrite E. Qed.

Lemma liftOp_then_None {B} f (b : B) s :
  f s = None -> (liftOp f ;;; ret b) s = mkRun [] (Throw InvariantError) s.
Proof. intros E. unfold bind, liftOp. now rewrite E. Qed.

Section BuiltIn.
Context `{LexicalCore}.

Lemma execCommand_insertText depth payload s sel :
  _selection s = Some sel ->
  execCommand (S depth) "insertText" payload s
  = (liftOp (insertText payload) ;;; ret true) s.
Proof. apply listener_insertText. Qed.

Lemma execCommand_deleteCharacter depth payload s sel :
  _selection s = Some sel ->
  execCommand (S depth) "deleteCharacter" payload s
  = (liftOp (deleteCharacter payload) ;;; ret true) s.
Proof. apply listener_deleteCharacter. Qed.

Lemma execCommand_indentContent_tab depth payload s sel k n :
  _selection s = Some sel ->
  outcome (parentBlockOf (anchor sel) s) = Ok k ->
  _nodeMap s !! k = Some n ->
  acceptsTab n = true ->
  execCommand (S (S depth)) "indentContent" payload s
  = (liftOp (insertText (VString [tab])) ;;; ret true) s.
Proof.
  intros E Hk Hn Ht.
  change (execCommand (S (S depth)) "indentContent" payload s)
    with (commandListener (execCommand (S depth)) "indentContent" payload s).
  rewrite (listener_indentContent _ _ _ sel k n) by done.
  rewrite Ht.
  rewrite (bind_at _ _ _ _ (execCommand_insertText depth _ s sel E)).
  apply bind_ret_then.
Qed.
End BuiltIn.

(** C4.  In a block that accepts literal tabs, [indentContent] is
    nothing but a re-dispatch of [insertText] with one tab character
    followed by [return true]: the state it leaves is the state the
    re-dispatch left, so the handler stores no indent level.  [keyTab]
    without shift consumes the event and re-dispatches [indentContent].
    When this listener is the only one registered, both end in
    [selection.insertText('\t')] and report handled; the block's
    indent is then whatever that call left, the old level if the call
    does not touch it. *)
Theorem indentContent_in_tab_block `{LexicalCore}
    (exec : string -> value -> M bool) payload e s sel k n :
  _selection s = Some sel ->
  outcome (parentBlockOf (anchor sel) s) = Ok k ->
  _nodeMap s !! k = Some n ->
  acceptsTab n = true ->
  shiftKey e = false ->
  commandListener exec "indentContent" payload s
    = (exec "insertText" (VString [tab]) ;;; ret true) s
  /\ commandListener exec "keyTab" (VEvent e) s
    = (emit (PreventDefault e) ;;; exec "indentContent" VUndefined) s
  /\ execCommand maxDepth "indentContent" payload s
    = (liftOp (insertText (VString [tab])) ;;; ret true) s
  /\ execCommand maxDepth "keyTab" (VEvent e) s
    = (emit (PreventDefault e) ;;;
       liftOp (insertText (VString [tab])) ;;; ret true) s
  /\ forall s', insertText (VString [tab]) s = Some s' ->
       execCommand maxDepth "indentContent" payload s = mkRun [] (Ok true) s'
       /\ execCommand maxDepth "keyTab" (VEvent e) s
          = mkRun [PreventDefault e] (Ok true) s'
       /\ (indentOf k s' = indentOf k s ->
           indentOf k (state (execCommand maxDepth "keyTab" (VEvent e) s))
           = Some (__indent n)).
Proof.
  intros E Hk Hn Ht Hshift.
  assert (Hdirect : forall depth p,
             execCommand (S (S depth)) "indentContent" p s
             = (liftOp (insertText (VString [tab])) ;;; ret true) s)
    by (intros; now apply (execCommand_indentContent_tab _ _ _ sel k n)).
  assert (Htab : execCommand maxDepth "keyTab" (VEvent e) s
                 = (emit (PreventDefault e) ;;;
                    liftOp (insertText (VString [tab])) ;;; ret true) s).
  { change (execCommand maxDepth "keyTab" (VEvent e) s)
      with (commandListener (execCommand 2) "keyTab" (VEvent e) s).
    rewrite (listener_keyTab _ _ _ sel E), Hshift.
    rewrite !bind_emit. cbv beta iota. now rewrite Hdirect. }
  unfold maxDepth in *. split; [|split; [|split; [|split]]].
  - rewrite (listener_indentContent _ _ _ sel k n) by done. now rewrite Ht.
  - rewrite (listener_keyTab _ _ _ sel E). now rewrite Hshift.
  - apply Hdirect.
  - exact Htab.
  - intros s' Hins. rewrite Hdirect, Htab, bind_emit.
    rewrite (liftOp_then_Some _ _ s s' Hins).
    split; [reflexivity|split; [reflexivity|]].
    simpl. intros ->. unfold indentOf. now rewrite Hn.
Qed.

Lemma indentContent_in_tab_block_witness :
  let s := codeDocument [97%N; 98%N] 0 in
  let r := @execCommand caretCore maxDepth "keyTab" (VEvent plainKey) s in
  outcome r = Ok true
  /\ effects r = [PreventDefault plainKey]
  /\ __text <$> _nodeMap (state r) !! 2%N = Some [tab; 97%N; 98%N]
  /\ indentOf 1%N (state r) = Some 0.
Proof.
  pose proof (@indentContent_in_tab_block caretCore
                (@execCommand caretCore 2) VUndefined plainKey
                (codeDocument [97%N; 98%N] 0)
                (mkSelection (mkPoint 2%N 0 text) (mkPoint 2%N 0 text))
                1%N (mkNode CodeNode (Some 0%N) [2%N] [] 0)
                eq_refl eq_refl eq_refl eq_refl eq_refl)
    as (_ & _ & _ & Htab & _).
  cbv zeta. rewrite Htab. vm_compute. repeat split.
Defined.

Lemma indentOf_withIndentAt k n z s : indentOf k (withIndentAt k n z s) = Some z.
Proof. unfold indentOf, withIndentAt. simpl. now rewrite lookup_insert_eq. Qed.

(** C5.  [outdentContent], once the parent block is resolved.  In a
    block that accepts tabs it looks at the text of the anchor's node,
    at the index just before the anchor offset.  Exactly when that index
    is inside the text and the code unit there is a tab, it re-dispatches
    [deleteCharacter] with [true] and returns [true]; when the index is
    negative or past the end, or the code unit there is anything but a
    tab, it returns [true] without re-dispatching and without changing
    anything.  In any other block it returns [true] having stored
    [indent - 1] unless the indent is [0]; for an indent that is not
    negative the new level is [max 0 (indent - 1)]. *)
Theorem outdentContent_behaviour `{LexicalCore}
    (exec : string -> value -> M bool) payload s sel k n :
  _selection s = Some sel ->
  outcome (parentBlockOf (anchor sel) s) = Ok k ->
  _nodeMap s !! k = Some n ->
  let r := commandListener exec "outdentContent" payload s in
  let textContent := getTextContent (key (anchor sel)) s in
  let index := offset (anchor sel) - 1 in
  (acceptsTab n = true ->
     0 <= index -> nth_error textContent (Z.to_nat index) = Some tab ->
     r = (exec "deleteCharacter" (VBool true) ;;; ret true) s)
  /\ (acceptsTab n = true ->
      index < 0 \/ nth_error textContent (Z.to_nat index) <> Some tab ->
      r = mkRun [] (Ok true) s)
  /\ (acceptsTab n = false ->
     r = mkRun [] (Ok true)
           (if (__indent n =? 0)%Z then s
            else withIndentAt k n (__indent n - 1) s))
  /\ (acceptsTab n = false -> 0 <= __indent n ->
     outcome r = Ok true
     /\ indentOf k (state r) = Some (Z.max 0 (__indent n - 1))).
Proof.
  intros E Hk Hn r textContent index. subst r.
  rewrite (listener_outdentContent _ _ _ sel k n) by done.
  fold textContent. fold index. unfold charAt.
  split; [|split; [|split]].
  - intros -> Hpos Hchar.
    destruct (Z.ltb_spec index 0) as [?|_]; [lia|].
    now rewrite Hchar.
  - intros -> Hnot.
    destruct (Z.ltb_spec index 0) as [_|Hpos]; [reflexivity|].
    destruct Hnot as [?|Hnot]; [lia|].
    destruct (nth_error textContent (Z.to_nat index)) as [c|]; [|reflexivity].
    simpl. destruct (N.eqb_spec c tab) as [->|]; [congruence|reflexivity].
  - intros ->. reflexivity.
  - intros -> Hpos. split; [reflexivity|]. simpl.
    destruct (Z.eqb_spec (__indent n) 0) as [E0|Hne].
    + unfold indentOf. rewrite Hn. simpl. f_equal. lia.
    + rewrite indentOf_withIndentAt. f_equal. lia.
Qed.

Lemma outdentContent_behaviour_witness :
  (* a tab before the caret in a code block: one backward delete *)
  (let r := @commandListener caretCore (@execCommand caretCore 2)
              "outdentContent" VUndefined (codeDocument [tab; 97%N] 1) in
   outcome r = Ok true
   /\ __text <$> _nodeMap (state r) !! 2%N = Some [97%N])
  (* a letter before the caret, a tab after it: nothing is re-dispatched *)
  /\ @commandListener caretCore (fun _ _ => throw TypeError)
       "outdentContent" VUndefined (codeDocument [97%N; tab] 1)
     = mkRun [] (Ok true) (codeDocument [97%N; tab] 1)
  (* a paragraph at indent 3 goes to 2 *)
  /\ (let r := @commandListener caretCore (@execCommand caretCore 2)
                 "outdentContent" VUndefined (paragraphDocument 3) in
      outcome r = Ok true /\ indentOf 1%N (state r) = Some 2).
Proof.
  split; [|split].
  - pose proof (@outdentContent_behaviour caretCore
                  (@execCommand caretCore 2) VUndefined
                  (codeDocument [tab; 97%N] 1)
                  (mkSelection (mkPoint 2%N 1 text) (mkPoint 2%N 1 text))
                  1%N (mkNode CodeNode (Some 0%N) [2%N] [] 0)
                  eq_refl eq_refl eq_refl) as (Htab & _).
    cbv zeta in *.
    rewrite (Htab eq_refl ltac:(vm_compute; discriminate) eq_refl).
    vm_compute. split; reflexivity.
  - pose proof (@outdentContent_behaviour caretCore
                  (fun _ _ => throw TypeError) VUndefined
                  (codeDocument [97%N; tab] 1)
                  (mkSelection (mkPoint 2%N 1 text) (mkPoint 2%N 1 text))
                  1%N (mkNode CodeNode (Some 0%N) [2%N] [] 0)
                  eq_refl eq_refl eq_refl) as (_ & Hother & _).
    cbv zeta in *. apply Hother; [reflexivity|].
    right. vm_compute. discriminate.
  - pose proof (@outdentContent_behaviour caretCore
                  (@execCommand caretCore 2) VUndefined
                  (paragraphDocument 3)
                  (mkSelection (mkPoint 2%N 0 text) (mkPoint 2%N 0 text))
                  1%N (mkNode ParagraphNode (Some 0%N) [2%N] [] 3)
                  eq_refl eq_refl eq_refl) as (_ & _ & _ & Hpar).
    cbv zeta in *. apply Hpar; [reflexivity | simpl; lia].
Defined.

(** C10.  [outdentContent] in a tab-accepting block with the anchor at
    offset 0: index [-1] of the text is no code unit at all, so it is
    not a tab; the listener returns [true] without calling
    [editor.execCommand], without an effect and with the state as it
    was.  Nothing throws. *)
Theorem outdentContent_at_offset_zero `{LexicalCore}
    (exec : string -> value -> M bool) payload s sel k n :
  _selection s = Some sel ->
  outcome (parentBlockOf (anchor sel) s) = Ok k ->
  _nodeMap s !! k = Some n ->
  acceptsTab n = true ->
  offset (anchor sel) = 0 ->
  charAt (getTextContent (key (anchor sel)) s) (offset (anchor sel) - 1) = None
  /\ commandListener exec "outdentContent" payload s = mkRun [] (Ok true) s.
Proof.
  intros E Hk Hn Ht Hoff.
  assert (Hc : charAt (getTextContent (key (anchor sel)) s)
                 (offset (anchor sel) - 1) = None)
    by (rewrite Hoff; reflexivity).
  split; [exact Hc|].
  rewrite (listener_outdentContent _ _ _ sel k n) by done.
  now rewrite Ht, Hc.
Qed.

Lemma outdentContent_at_offset_zero_witness :
  @commandListener caretCore (fun _ _ => throw TypeError)
    "outdentContent" VUndefined (codeDocument [tab; 97%N] 0)
  = mkRun [] (Ok true) (codeDocument [tab; 97%N] 0).
Proof.
  apply (@outdentContent_at_offset_zero caretCore (fun _ _ => throw TypeError)
           VUndefined (codeDocument [tab; 97%N] 0)
           (mkSelection (mkPoint 2%N 0 text) (mkPoint 2%N 0 text))
           1%N (mkNode CodeNode (Some 0%N) [2%N] [] 0));
    reflexivity.
Defined.

(** C6.  [keyEnter] with a selection: the event is consumed first, then
    [insertLineBreak] is re-dispatched when shift is held and
    [insertParagraph] otherwise, and the listener ends exactly as that
    re-dispatch ends: same result, same state, its effects after the
    [preventDefault].  The event is consumed whatever the re-dispatch
    returns. *)
Theorem keyEnter_redispatches `{LexicalCore}
    (exec : string -> value -> M bool) e s sel :
  _selection s = Some sel ->
  let r := commandListener exec "keyEnter" (VEvent e) s in
  let r' := exec (if shiftKey e then "insertLineBreak" else "insertParagraph")
                 VUndefined s in
  effects r = PreventDefault e :: effects r'
  /\ outcome r = outcome r'
  /\ state r = state r'
  /\ In (PreventDefault e) (effects r).
Proof.
  intros E r r'. subst r r'.
  rewrite (listener_keyEnter _ _ _ sel E), bind_emit. simpl.
  repeat split. now left.
Qed.

Lemma keyEnter_redispatches_witness :
  let r := @commandListener caretCore (fun _ _ => ret false)
             "keyEnter" (VEvent shiftTab) (paragraphDocument 0) in
  effects r = [PreventDefault shiftTab] /\ outcome r = Ok false.
Proof.
  pose proof (@keyEnter_redispatches caretCore (fun _ _ => ret false)
                shiftTab (paragraphDocument 0)
                (mkSelection (mkPoint 2%N 0 text) (mkPoint 2%N 0 text))
                eq_refl) as (He & Ho & _).
  split; [exact He | exact Ho].
Defined.

(** C7.  [keyBackspace] and [keyDelete] with a selection: the event is
    consumed first, then [deleteCharacter] is re-dispatched with [true]
    for backspace and [false] for delete, and the listener ends exactly
    as that re-dispatch ends.  With only this listener registered, a
    backspace where [selection.deleteCharacter(true)] finds nothing to
    delete reports handled and leaves the state as it was. *)
Theorem keyBackspace_keyDelete_redispatch `{LexicalCore}
    (exec : string -> value -> M bool) e s sel :
  _selection s = Some sel ->
  (let r := commandListener exec "keyBackspace" (VEvent e) s in
   let r' := exec "deleteCharacter" (VBool true) s in
   effects r = PreventDefault e :: effects r'
   /\ outcome r = outcome r' /\ state r = state r')
  /\ (let r := commandListener exec "keyDelete" (VEvent e) s in
      let r' := exec "deleteCharacter" (VBool false) s in
      effects r = PreventDefault e :: effects r'
      /\ outcome r = outcome r' /\ state r = state r')
  /\ (deleteCharacter (VBool true) s = Some s ->
      execCommand maxDepth "keyBackspace" (VEvent e) s
      = mkRun [PreventDefault e] (Ok true) s).
Proof.
  intros E. split; [|split].
  - cbv zeta. rewrite (listener_keyBackspace _ _ _ sel E), bind_emit.
    simpl. repeat split.
  - cbv zeta. rewrite (listener_keyDelete _ _ _ sel E), bind_emit.
    simpl. repeat split.
  - intros Hnoop.
    change (execCommand maxDepth "keyBackspace" (VEvent e) s)
      with (commandListener (execCommand 2) "keyBackspace" (VEvent e) s).
    rewrite (listener_keyBackspace _ _ _ sel E), bind_emit.
    rewrite (execCommand_deleteCharacter _ _ _ sel E).
    now rewrite (liftOp_then_Some _ _ s s Hnoop).
Qed.

Lemma keyBackspace_keyDelete_redispatch_witness :
  @execCommand caretCore maxDepth "keyBackspace" (VEvent plainKey)
    (paragraphDocument 0)
  = mkRun [PreventDefault plainKey] (Ok true) (paragraphDocument 0).
Proof.
  pose proof (@keyBackspace_keyDelete_redispatch caretCore
                (@execCommand caretCore 2) plainKey (paragraphDocument 0)
                (mkSelection (mkPoint 2%N 0 text) (mkPoint 2%N 0 text))
                eq_refl) as (_ & _ & Hstart).
  apply Hstart. reflexivity.
Defined.

(** ** The indent bound *)

Lemma state_bind_ret {A B} (m : M A) (b : B) s :
  state ((m ;;; ret b) s) = state (m s).
Proof. unfold bind, ret. now destruct (m s) as [eff [a|e|] s1]. Qed.

Lemma indentInRange_withIndentAt k k' n z s :
  _nodeMap s !! k' = Some n ->
  (k = k' -> 0 <= z <= 10) ->
  indentInRange k s -> indentInRange k (withIndentAt k' n z s).
Proof.
  intros Hn Hz Hs. unfold indentInRange, withIndentAt in *. simpl.
  destruct (decide (k' = k)) as [->|Hne].
  - rewrite lookup_insert_eq. simpl. auto.
  - now rewrite lookup_insert_ne.
Qed.

Section IndentBound.
Context `{LexicalCore}.
Variable exec : string -> value -> M bool.

(** When the block cannot be resolved the two indent cases throw
    before touching anything. *)
Lemma listener_indentContent_unresolved payload s sel :
  _selection s = Some sel ->
  (forall k, outcome (parentBlockOf (anchor sel) s) <> Ok k) ->
  state (commandListener exec "indentContent" payload s) = s.
Proof.
  intros E Hk. unfold commandListener.
  rewrite (bind_read _ _ s (Some sel)) by now rewrite getSelection_run, E.
  lazy [String.eqb Ascii.eqb Bool.eqb].
  destruct (parentBlockOf_reads (anchor sel) s) as [Hs He].
  unfold bind at 1.
  destruct (outcome (parentBlockOf (anchor sel) s)) as [k|e|] eqn:Ho;
    [now destruct (Hk k) | exact Hs | exact Hs].
Qed.

Lemma listener_outdentContent_unresolved payload s sel :
  _selection s = Some sel ->
  (forall k, outcome (parentBlockOf (anchor sel) s) <> Ok k) ->
  state (commandListener exec "outdentContent" payload s) = s.
Proof.
  intros E Hk. unfold commandListener.
  rewrite (bind_read _ _ s (Some sel)) by now rewrite getSelection_run, E.
  lazy [String.eqb Ascii.eqb Bool.eqb].
  destruct (_nodeMap s !! key (anchor sel)) as [a|] eqn:Ha.
  - rewrite (bind_read _ _ s (key (anchor sel)))
      by now apply (getNode_Some _ _ a).
    destruct (parentBlockOf_reads (anchor sel) s) as [Hs He].
    unfold bind at 1.
    destruct (outcome (parentBlockOf (anchor sel) s)) as [k|e|] eqn:Ho;
      [now destruct (Hk k) | exact Hs | exact Hs].
  - now rewrite (bind_throw _ _ s [] InvariantError s)
      by now apply getNode_None.
Qed.

Hypothesis exec_insertText_in_range : forall k s,
  indentInRange k s ->
  indentInRange k (state (exec "insertText" (VString [tab]) s)).
Hypothesis exec_deleteCharacter_in_range : forall k s,
  indentInRange k s ->
  indentInRange k (state (exec "deleteCharacter" (VBool true) s)).

Lemma listener_indentContent_in_range payload k s :
  indentInRange k s ->
  indentInRange k (state (commandListener exec "indentContent" payload s)).
Proof.
  intros Hs. destruct (_selection s) as [sel|] eqn:E;
    [|now rewrite listener_null_selection].
  destruct (outcome (parentBlockOf (anchor sel) s)) as [k'|e|] eqn:Hk.
  - destruct (parentBlockOf_in_snapshot _ _ _ Hk) as [n Hn].
    rewrite (listener_indentContent _ _ _ sel k' n) by done.
    destruct (acceptsTab n).
    + rewrite state_bind_ret. auto.
    + simpl. destruct (Z.eqb_spec (__indent n) 10); [done|].
      apply indentInRange_withIndentAt; [done| |done].
      intros ->. unfold indentInRange in Hs. rewrite Hn in Hs. lia.
  - rewrite (listener_indentContent_unresolved _ _ sel); [done|done|].
    intros k'. now rewrite Hk.
  - rewrite (listener_indentContent_unresolved _ _ sel); [done|done|].
    intros k'. now rewrite Hk.
Qed.

Lemma listener_outdentContent_in_range payload k s :
  indentInRange k s ->
  indentInRange k (state (commandListener exec "outdentContent" payload s)).
Proof.
  intros Hs. destruct (_selection s) as [sel|] eqn:E;
    [|now rewrite listener_null_selection].
  destruct (outcome (parentBlockOf (anchor sel) s)) as [k'|e|] eqn:Hk.
  - destruct (parentBlockOf_in_snapshot _ _ _ Hk) as [n Hn].
    rewrite (listener_outdentContent _ _ _ sel k' n) by done.
    destruct (acceptsTab n).
    + destruct (isTab _); [|done]. rewrite state_bind_ret. auto.
    + simpl. destruct (Z.eqb_spec (__indent n) 0); [done|].
      apply indentInRange_withIndentAt; [done| |done].
      intros ->. unfold indentInRange in Hs. rewrite Hn in Hs. lia.
  - rewrite (listener_outdentContent_unresolved _ _ sel); [done|done|].
    intros k'. now rewrite Hk.
  - rewrite (listener_outdentContent_unresolved _ _ sel); [done|done|].
    intros k'. now rewrite Hk.
Qed.
End IndentBound.

Lemma caret_Some s k i n :
  caret s = Some (k, i, n) -> _nodeMap s !! k = Some n.
Proof.
  unfold caret. destruct (_selection s) as [[[k1 o1 []] [k2 o2 []]]|]; try done.
  destruct (_ && _)%bool; [|done].
  destruct (_nodeMap s !! k1) eqn:E; [|done]. now intros [= <- _ <-].
Qed.

Lemma indentInRange_withText k k' n t s sel :
  _nodeMap s !! k' = Some n ->
  indentInRange k s ->
  indentInRange k (mkEditorState (<[k' := withText t n]> (_nodeMap s)) sel).
Proof.
  intros Hn Hs. unfold indentInRange in *. simpl.
  destruct (decide (k' = k)) as [->|Hne].
  - rewrite lookup_insert_eq. simpl. now rewrite Hn in Hs.
  - now rewrite lookup_insert_ne.
Qed.

Lemma caretInsertText_in_range v s s' k :
  caretInsertText v s = Some s' -> indentInRange k s -> indentInRange k s'.
Proof.
  unfold caretInsertText. destruct v; try done.
  destruct (caret s) as [[[k0 i] n]|] eqn:Hc; intros [= <-]; [|done].
  apply indentInRange_withText. eapply caret_Some, Hc.
Qed.

Lemma caretDeleteCharacter_in_range v s s' k :
  caretDeleteCharacter v s = Some s' -> indentInRange k s -> indentInRange k s'.
Proof.
  unfold caretDeleteCharacter. destruct v as [| |b| | |]; try done.
  destruct (caret s) as [[[k0 i] n]|] eqn:Hc; [|now intros [= <-]].
  pose proof (caret_Some _ _ _ _ Hc) as Hn.
  destruct b; [destruct i|]; intros [= <-]; try done;
    now apply indentInRange_withText.
Qed.

Section IndentInvariant.
Context `{LexicalCore}.

Hypothesis insertText_in_range : forall s s' k,
  insertText (VString [tab]) s = Some s' ->
  indentInRange k s -> indentInRange k s'.
Hypothesis deleteCharacter_in_range : forall s s' k,
  deleteCharacter (VBool true) s = Some s' ->
  indentInRange k s -> indentInRange k s'.

Lemma execCommand_insertText_in_range depth k s :
  indentInRange k s ->
  indentInRange k (state (execCommand depth "insertText" (VString [tab]) s)).
Proof.
  intros Hs. destruct depth as [|depth]; [done|].
  destruct (_selection s) as [sel|] eqn:E.
  - rewrite (execCommand_insertText _ _ _ sel E).
    destruct (insertText (VString [tab]) s) as [s'|] eqn:Hop.
    + rewrite (liftOp_then_Some _ _ s s' Hop). simpl. eauto.
    + now rewrite (liftOp_then_None _ _ s Hop).
  - change (execCommand (S depth) "insertText" (VString [tab]) s)
      with (commandListener (execCommand depth) "insertText" (VString [tab]) s).
    now rewrite listener_null_selection.
Qed.

Lemma execCommand_deleteCharacter_in_range depth k s :
  indentInRange k s ->
  indentInRange k (state (execCommand depth "deleteCharacter" (VBool true) s)).
Proof.
  intros Hs. destruct depth as [|depth]; [done|].
  destruct (_selection s) as [sel|] eqn:E.
  - rewrite (execCommand_deleteCharacter _ _ _ sel E).
    destruct (deleteCharacter (VBool true) s) as [s'|] eqn:Hop.
    + rewrite (liftOp_then_Some _ _ s s' Hop). simpl. eauto.
    + now rewrite (liftOp_then_None _ _ s Hop).
  - change (execCommand (S depth) "deleteCharacter" (VBool true) s)
      with (commandListener (execCommand depth) "deleteCharacter" (VBool true) s).
    now rewrite listener_null_selection.
Qed.

Lemma execCommand_indent_in_range depth type_ payload k s :
  type_ = "indentContent" \/ type_ = "outdentContent" ->
  indentInRange k s ->
  indentInRange k (state (execCommand depth type_ payload s)).
Proof.
  intros Ht Hs. destruct depth as [|depth]; [done|].
  destruct Ht as [-> | ->].
  - apply listener_indentContent_in_range; [|done].
    intros. now apply execCommand_insertText_in_range.
  - apply listener_outdentContent_in_range; [|done].
    intros. now apply execCommand_deleteCharacter_in_range.
Qed.

Lemma dispatchCommand_in_range type_ payload k ed :
  type_ = "indentContent" \/ type_ = "outdentContent" ->
  indentInRange k (_editorState ed) ->
  indentInRange k (_editorState (editor (dispatchCommand type_ payload ed))).
Proof.
  intros Ht Hs. unfold dispatchCommand, update.
  pose proof (execCommand_indent_in_range maxDepth type_ payload k
                (_editorState ed) Ht Hs) as Hr.
  destruct (outcome _); simpl; done.
Qed.

Lemma dispatchAll_in_range commands ed k :
  Forall (fun c => fst c = "indentContent" \/ fst c = "outdentContent")
         commands ->
  indentInRange k (_editorState ed) ->
  indentInRange k (_editorState (dispatchAll commands ed)).
Proof.
  intros Hall. revert ed.
  induction Hall as [|[type_ payload] rest Ht _ IH]; intros ed Hs.
  - exact Hs.
  - simpl. apply IH. now apply dispatchCommand_in_range.
Qed.
End IndentInvariant.

(** C1.  Take any node whose indent is within [0, 10] (or any key with
    no node yet).  After any sequence of [indentContent] and
    [outdentContent] dispatches, each in its own transaction and with
    whatever payload, the indent kept under that key is still an integer
    within [0, 10].  The reason is in the two cases themselves: on a
    block that does not accept tabs, [indentContent] stores [indent + 1]
    only when the indent is not 10 and [outdentContent] stores
    [indent - 1] only when it is not 0, and both return [true].  The two
    primitives the listener reaches from these commands in a block that
    does accept tabs, [selection.insertText('\t')] and
    [selection.deleteCharacter(true)], are assumed not to take an indent
    out of the range themselves. *)
Theorem indent_stays_in_range `{LexicalCore} :
  (forall s s' k, insertText (VString [tab]) s = Some s' ->
     indentInRange k s -> indentInRange k s') ->
  (forall s s' k, deleteCharacter (VBool true) s = Some s' ->
     indentInRange k s -> indentInRange k s') ->
  (forall commands ed k,
     Forall (fun c => fst c = "indentContent" \/ fst c = "outdentContent")
            commands ->
     indentInRange k (_editorState ed) ->
     indentInRange k (_editorState (dispatchAll commands ed)))
  /\ (forall (exec : string -> value -> M bool) payload s sel k n,
       _selection s = Some sel ->
       outcome (parentBlockOf (anchor sel) s) = Ok k ->
       _nodeMap s !! k = Some n ->
       acceptsTab n = false ->
       commandListener exec "indentContent" payload s
       = mkRun [] (Ok true)
           (if (__indent n =? 10)%Z then s
            else withIndentAt k n (__indent n + 1) s)
       /\ commandListener exec "outdentContent" payload s
          = mkRun [] (Ok true)
              (if (__indent n =? 0)%Z then s
               else withIndentAt k n (__indent n - 1) s)).
Proof.
  intros Hins Hdel. split.
  - intros commands ed k. now apply dispatchAll_in_range.
  - intros exec payload s sel k n E Hk Hn Ht. split.
    + rewrite (listener_indentContent _ _ _ sel k n) by done. now rewrite Ht.
    + rewrite (listener_outdentContent _ _ _ sel k n) by done. now rewrite Ht.
Qed.

Lemma indent_stays_in_range_witness :
  let commands := [("indentContent", VUndefined); ("indentContent", VNull);
                   ("outdentContent", VUndefined)] in
  indentInRange 1%N
    (_editorState
       (@dispatchAll caretCore commands
          (mkEditor (paragraphDocument 9) None))).
Proof.
  refine (proj1 (@indent_stays_in_range caretCore _ _) _ _ _ _ _).
  - intros s s' k. exact (caretInsertText_in_range _ s s' k).
  - intros s s' k. exact (caretDeleteCharacter_in_range _ s s' k).
  - repeat (constructor; [simpl; auto|]). constructor.
  - vm_compute. split; discriminate.
Defined.

(** ** Indent followed by outdent *)

Lemma withIndent_same n : withIndent (__indent n) n = n.
Proof. now destruct n. Qed.

Lemma withIndentAt_same k n s :
  _nodeMap s !! k = Some n -> withIndentAt k n (__indent n) s = s.
Proof.
  intros Hn. unfold withIndentAt. rewrite withIndent_same.
  rewrite insert_id by done. now destruct s.
Qed.

Lemma withIndentAt_twice k n z z' s :
  withIndentAt k (withIndent z n) z' (withIndentAt k n z s)
  = withIndentAt k n z' s.
Proof. unfold withIndentAt. simpl. now rewrite insert_insert_eq. Qed.

Lemma lookup_withIndentAt k n z s k' :
  _nodeMap s !! k = Some n ->
  _nodeMap (withIndentAt k n z s) !! k'
  = withIndent (if decide (k = k') then z
                else default 0 (__indent <$> _nodeMap s !! k'))
    <$> _nodeMap s !! k'.
Proof.
  intros Hn. unfold withIndentAt. simpl. rewrite lookup_insert.
  case_decide as Hk.
  - subst k'. now rewrite Hn.
  - destruct (_nodeMap s !! k') as [n'|]; [|done]. simpl.
    now rewrite withIndent_same.
Qed.

(** What the resolution returns, read off the node map. *)
Lemma parentBlockOf_outcome `{LexicalCore} p s :
  outcome (parentBlockOf p s)
  = match _nodeMap s !! key p with
    | None => Throw InvariantError
    | Some a =>
        match type p with
        | element => Ok (key p)
        | text =>
            match __parent a with
            | None => Throw InvariantError
            | Some pk =>
                match _nodeMap s !! pk with
                | Some _ => Ok pk
                | None => Throw InvariantError
                end
            end
        end
    end.
Proof.
  unfold parentBlockOf, getNode, getParentOrThrow, getLatest, getNodeByKey,
    bind, ret, throw.
  destruct (type p); simpl.
  - destruct (_nodeMap s !! key p) as [a|] eqn:Ha; simpl; [|done].
    rewrite Ha. simpl.
    destruct (__parent a) as [pk|]; simpl; [|done].
    now destruct (_nodeMap s !! pk).
  - now destruct (_nodeMap s !! key p).
Qed.

(** Storing an indent does not move any node: the parent block of a
    point is the same before and after. *)
Lemma parentBlockOf_withIndentAt `{LexicalCore} p k n z s :
  _nodeMap s !! k = Some n ->
  outcome (parentBlockOf p (withIndentAt k n z s)) = outcome (parentBlockOf p s).
Proof.
  intros Hn. rewrite !parentBlockOf_outcome.
  rewrite (lookup_withIndentAt k n z s (key p) Hn).
  destruct (_nodeMap s !! key p) as [a|]; simpl; [|done].
  destruct (type p); [|done].
  destruct (__parent a) as [pk|]; [|done].
  change (<[k:=withIndent z n]> (_nodeMap s))
    with (_nodeMap (withIndentAt k n z s)).
  rewrite (lookup_withIndentAt k n z s pk Hn).
  now destruct (_nodeMap s !! pk).
Qed.

Section IndentOutdent.
Context `{LexicalCore}.

Lemma dispatch_indent_plain payload ed sel k n :
  _selection (_editorState ed) = Some sel ->
  outcome (parentBlockOf (anchor sel) (_editorState ed)) = Ok k ->
  _nodeMap (_editorState ed) !! k = Some n ->
  acceptsTab n = false ->
  editor (dispatchCommand "indentContent" payload ed)
  = mkEditor (if (__indent n =? 10)%Z then _editorState ed
              else withIndentAt k n (__indent n + 1) (_editorState ed))
             (_rootElement ed).
Proof.
  intros E Hk Hn Ht. unfold dispatchCommand, update.
  change (execCommand maxDepth "indentContent" payload (_editorState ed))
    with (commandListener (execCommand 2) "indentContent" payload
            (_editorState ed)).
  rewrite (listener_indentContent _ _ _ sel k n) by done.
  now rewrite Ht.
Qed.

Lemma dispatch_outdent_plain payload ed sel k n :
  _selection (_editorState ed) = Some sel ->
  outcome (parentBlockOf (anchor sel) (_editorState ed)) = Ok k ->
  _nodeMap (_editorState ed) !! k = Some n ->
  acceptsTab n = false ->
  editor (dispatchCommand "outdentContent" payload ed)
  = mkEditor (if (__indent n =? 0)%Z then _editorState ed
              else withIndentAt k n (__indent n - 1) (_editorState ed))
             (_rootElement ed).
Proof.
  intros E Hk Hn Ht. unfold dispatchCommand, update.
  change (execCommand maxDepth "outdentContent" payload (_editorState ed))
    with (commandListener (execCommand 2) "outdentContent" payload
            (_editorState ed)).
  rewrite (listener_outdentContent _ _ _ sel k n) by done.
  now rewrite Ht.
Qed.

(** C2, as amended.  On a block that does not accept tabs, with
    indent [n] in [0, 10]: for [n <= 9] an [indentContent] dispatch
    followed by an [outdentContent] dispatch gives back the editor
    exactly as it was, indent [n] included (this covers the floor
    [n = 0]).  At the ceiling [n = 10] the indent step changes nothing
    and the outdent step lowers the level, so the pair ends at 9. *)
Theorem indent_then_outdent payload1 payload2 ed sel k n :
  _selection (_editorState ed) = Some sel ->
  outcome (parentBlockOf (anchor sel) (_editorState ed)) = Ok k ->
  _nodeMap (_editorState ed) !! k = Some n ->
  acceptsTab n = false ->
  0 <= __indent n <= 10 ->
  let ed' := dispatchAll [("indentContent", payload1);
                          ("outdentContent", payload2)] ed in
  (__indent n <= 9 -> ed' = ed)
  /\ (__indent n = 10 -> indentOf k (_editorState ed') = Some 9).
Proof.
  intros E Hk Hn Ht Hrange. simpl.
  rewrite (dispatch_indent_plain _ ed sel k n) by done.
  split.
  - intros Hlt.
    destruct (Z.eqb_spec (__indent n) 10) as [?|_]; [lia|].
    rewrite (dispatch_outdent_plain _ _ sel k
               (withIndent (__indent n + 1) n)); simpl.
    + destruct (Z.eqb_spec (__indent n + 1) 0) as [?|_]; [lia|].
      rewrite withIndentAt_twice.
      replace (__indent n + 1 - 1) with (__indent n) by lia.
      rewrite withIndentAt_same by done. now destruct ed.
    + exact E.
    + now rewrite parentBlockOf_withIndentAt.
    + apply lookup_insert_eq.
    + exact Ht.
  - intros H10. rewrite H10. simpl.
    rewrite (dispatch_outdent_plain _ _ sel k n) by done.
    rewrite H10. simpl. apply indentOf_withIndentAt.
Qed.
End IndentOutdent.

Lemma indent_then_outdent_witness :
  let commands := [("indentContent", VUndefined); ("outdentContent", VUndefined)] in
  @dispatchAll caretCore commands (mkEditor (paragraphDocument 4) (Some 7%N))
  = mkEditor (paragraphDocument 4) (Some 7%N).
Proof.
  apply (@indent_then_outdent caretCore VUndefined VUndefined
           (mkEditor (paragraphDocument 4) (Some 7%N))
           (mkSelection (mkPoint 2%N 0 text) (mkPoint 2%N 0 text))
           1%N (mkNode ParagraphNode (Some 0%N) [2%N] [] 4));
    try reflexivity; simpl; lia.
Defined.

(** C2 as stated fails at the ceiling: a paragraph at indent 10 is left
    at 9 by [indentContent] followed by [outdentContent]. *)
Lemma indent_then_outdent_at_ceiling :
  let ed := mkEditor (paragraphDocument 10) None in
  let ed' := @dispatchAll caretCore
               [("indentContent", VUndefined); ("outdentContent", VUndefined)]
               ed in
  indentOf 1%N (_editorState ed) = Some 10
  /\ indentOf 1%N (_editorState ed') = Some 9
  /\ indentOf 1%N (_editorState ed') <> indentOf 1%N (_editorState ed).
Proof. vm_compute. repeat split. discriminate. Qed.

(** ** Seeding and clearing *)

Lemma getRoot_run s rn :
  _nodeMap s !! rootKey = Some rn -> getRoot s = mkRun [] (Ok rootKey) s.
Proof.
  intros E. unfold getRoot, bind, getNodeByKey. simpl. now rewrite E.
Qed.

Lemma getFirstChild_run k s n :
  _nodeMap s !! k = Some n ->
  getFirstChild k s = mkRun [] (Ok (firstChildOf s n)) s.
Proof.
  intros E. unfold getFirstChild, firstChildOf.
  rewrite (bind_read _ _ s n) by now apply getLatest_Some.
  destruct (__children n) as [|c rest]; [done|].
  unfold bind, getNodeByKey. simpl. now destruct (_nodeMap s !! c).
Qed.

Lemma clear_run k s n :
  _nodeMap s !! k = Some n -> clear k s = mkRun [] (Ok tt) (cleared k n s).
Proof.
  intros E. unfold clear.
  now rewrite (bind_read _ _ s n) by now apply getLatest_Some.
Qed.

Lemma dom_detach_all (m : gmap N LexicalNode) (l : list N) :
  dom (foldr (alter (withParent None)) m l) = dom m.
Proof.
  induction l as [|c l IH]; [done|]. simpl. now rewrite dom_alter_L.
Qed.

(** Clearing removes no key and adds none. *)
Lemma dom_cleared k n s :
  _nodeMap s !! k = Some n -> dom (_nodeMap (cleared k n s)) = dom (_nodeMap s).
Proof.
  intros Hn. unfold cleared. simpl. rewrite dom_insert_L, dom_detach_all.
  apply subseteq_union_1_L, singleton_subseteq_l, elem_of_dom. eauto.
Qed.

Lemma shouldSelectParagraph_run document ed s :
  shouldSelectParagraph document ed s
  = mkRun [] (Ok (match _selection s with Some _ => true | None => false end
                  || hostIsFocused document ed)) s.
Proof. reflexivity. Qed.

Lemma fresh_key_not_in (m : gmap N LexicalNode) k n :
  m !! k = Some n -> fresh (dom m) <> k.
Proof.
  intros E Hk. apply (is_fresh (dom m)). rewrite Hk.
  apply elem_of_dom. eauto.
Qed.

(** [initParagraph] on a snapshot that holds [root]. *)
Lemma initParagraph_run document ed root s n :
  _nodeMap s !! root = Some n ->
  initParagraph document root ed s
  = mkRun [] (Ok tt)
      (seeded root n
         (if match _selection s with Some _ => true | None => false end
             || hostIsFocused document ed
          then Some (collapsedIn (fresh (dom (_nodeMap s))))
          else _selection s) s).
Proof.
  intros Hn. unfold initParagraph.
  set (p := fresh (dom (_nodeMap s))).
  assert (Hp : p <> root) by (eapply fresh_key_not_in, Hn).
  set (s1 := mkEditorState (<[p := mkNode ParagraphNode None [] [] 0]> (_nodeMap s))
                           (_selection s)).
  rewrite (bind_ok _ _ s [] p s1) by reflexivity.
  set (s2 := seeded root n (_selection s) s).
  assert (Happend : append root p s1 = mkRun [] (Ok tt) s2).
  { unfold append.
    rewrite (bind_read _ _ s1 (mkNode ParagraphNode None [] [] 0))
      by (apply getLatest_Some; apply lookup_insert_eq).
    rewrite (bind_read _ _ s1 n)
      by (apply getLatest_Some; simpl; now rewrite lookup_insert_ne).
    unfold s2, seeded, s1. simpl. fold p.
    now rewrite insert_insert_eq. }
  rewrite (bind_ok _ _ s1 [] tt s2 Happend).
  rewrite (bind_read _ _ s2 _ (shouldSelectParagraph_run document ed s2)).
  change (_selection s2) with (_selection s).
  destruct (_ || _)%bool.
  - unfold select.
    rewrite (bind_read _ _ s2 (seedParagraph root)).
    + reflexivity.
    + apply getLatest_Some. unfold s2, seeded. simpl. fold p.
      rewrite lookup_insert_ne by done. apply lookup_insert_eq.
  - reflexivity.
Qed.

Section SeedingFacts.
Variable document : Document.

Lemma clearEditor_run ed callbackFn rn :
  _nodeMap (_editorState ed) !! rootKey = Some rn ->
  let s1 := cleared rootKey rn (_editorState ed) in
  let s2 := seeded rootKey (withChildren [] rn)
              (if selectsParagraph document ed s1
               then Some (collapsedIn (fresh (dom (_nodeMap s1))))
               else _selection s1) s1 in
  clearEditor document ed callbackFn
  = mkCompleted
      (Log "clearEditor" :: Commit s2 ::
         match callbackFn with Some cb => [OnUpdate cb] | None => [] end)
      (Ok tt) (mkEditor s2 (_rootElement ed)).
Proof.
  intros Hroot s1 s2. unfold clearEditor, update, log.
  rewrite bind_emit.
  rewrite (bind_read _ _ _ rootKey (getRoot_run _ rn Hroot)).
  rewrite (bind_ok _ _ _ [] tt s1 (clear_run _ _ rn Hroot)).
  rewrite (initParagraph_run document ed rootKey s1 (withChildren [] rn))
    by apply lookup_insert_eq.
  reflexivity.
Qed.

(** C8.  Whatever the node map holds, as long as it has its root,
    [clearEditor] commits a snapshot in which the root has exactly one
    child; that child is an empty paragraph whose parent is the root,
    under a key no node had before, so none of the former children is
    left under the root.  The trace is: the log entry, the commit, then
    the completion callback when one was passed. *)
Theorem clearEditor_reseeds ed callbackFn rn :
  _nodeMap (_editorState ed) !! rootKey = Some rn ->
  let c := clearEditor document ed callbackFn in
  let s' := _editorState (editor c) in
  exists paragraph,
    result c = Ok tt
    /\ __children <$> _nodeMap s' !! rootKey = Some [paragraph]
    /\ _nodeMap s' !! paragraph = Some (seedParagraph rootKey)
    /\ _nodeMap (_editorState ed) !! paragraph = None
    /\ trace c = Log "clearEditor" :: Commit s' ::
                 match callbackFn with
                 | Some cb => [OnUpdate cb]
                 | None => []
                 end.
Proof.
  intros Hroot. cbv zeta.
  rewrite (clearEditor_run ed callbackFn rn Hroot). simpl.
  set (s1 := cleared rootKey rn (_editorState ed)).
  exists (fresh (dom (_nodeMap s1))).
  assert (Hp : fresh (dom (_nodeMap s1)) <> rootKey)
    by (eapply fresh_key_not_in; apply lookup_insert_eq).
  repeat split.
  - now rewrite lookup_insert_eq.
  - rewrite lookup_insert_ne by done. apply lookup_insert_eq.
  - apply not_elem_of_dom. rewrite <- (dom_cleared rootKey rn _ Hroot).
    apply is_fresh.
Qed.

Lemma initEditor_run_seeded ed rn :
  let s := _editorState ed in
  _nodeMap s !! rootKey = Some rn ->
  firstChildOf s rn = None ->
  let s' := seeded rootKey rn
              (if selectsParagraph document ed s
               then Some (collapsedIn (fresh (dom (_nodeMap s))))
               else _selection s) s in
  initEditor document ed
  = mkCompleted [Log "initEditor"; Commit s'] (Ok tt)
      (mkEditor s' (_rootElement ed)).
Proof.
  intros s Hroot Hfirst s'. unfold initEditor, update, log.
  rewrite bind_emit.
  rewrite (bind_read _ _ _ rootKey (getRoot_run _ rn Hroot)).
  rewrite (bind_read _ _ _ _ (getFirstChild_run _ _ rn Hroot)).
  fold s. rewrite Hfirst.
  rewrite (initParagraph_run document ed rootKey s rn Hroot).
  reflexivity.
Qed.

(** C9.  [initEditor] on an editor whose snapshot has its root.  If
    the root has a first child, the editor comes back as it was (the
    transaction still logs and commits).  Otherwise one empty
    paragraph under a fresh key becomes the last child of the root,
    and the selection ends collapsed inside that paragraph exactly
    when there was a selection before or the active element is the
    editor's root element; if neither holds there is still no
    selection. *)
Theorem initEditor_seeds ed rn :
  let s := _editorState ed in
  _nodeMap s !! rootKey = Some rn ->
  let c := initEditor document ed in
  let s' := _editorState (editor c) in
  let paragraph := fresh (dom (_nodeMap s)) in
  (forall first, firstChildOf s rn = Some first ->
     editor c = ed /\ result c = Ok tt
     /\ trace c = [Log "initEditor"; Commit s])
  /\ (firstChildOf s rn = None ->
      result c = Ok tt
      /\ _nodeMap s !! paragraph = None
      /\ _nodeMap s'
         = <[rootKey := withChildren (__children rn ++ [paragraph]) rn]>
             (<[paragraph := seedParagraph rootKey]> (_nodeMap s))
      /\ (_selection s' = Some (collapsedIn paragraph)
          <-> is_Some (_selection s) \/ hostIsFocused document ed = true)
      /\ (_selection s' = Some (collapsedIn paragraph)
          \/ _selection s' = None)).
Proof.
  intros s Hroot. cbv zeta. split.
  - intros first Hfirst. unfold initEditor, update, log.
    rewrite bind_emit.
    rewrite (bind_read _ _ _ rootKey (getRoot_run _ rn Hroot)).
    rewrite (bind_read _ _ _ _ (getFirstChild_run _ _ rn Hroot)).
    fold s. rewrite Hfirst. simpl. repeat split.
    subst s. now destruct ed.
  - intros Hfirst.
    rewrite (initEditor_run_seeded ed rn Hroot Hfirst). simpl. fold s.
    split; [reflexivity|]. split.
    { apply not_elem_of_dom, is_fresh. }
    split; [reflexivity|].
    unfold selectsParagraph. destruct (_selection s) as [sel|] eqn:Hsel; simpl.
    + split; [|now left]. split; [eauto|done].
    + destruct (hostIsFocused document ed); simpl.
      * split; [|now left]. split; [auto|done].
      * split; [|now right]. split; [done|].
        intros [[x Hx]|Hx]; done.
Qed.
End SeedingFacts.

Lemma clearEditor_reseeds_witness :
  let c := clearEditor (mkDocument None)
             (mkEditor (paragraphDocument 3) None) (Some 5%N) in
  let s' := _editorState (editor c) in
  exists paragraph,
    result c = Ok tt
    /\ __children <$> _nodeMap s' !! rootKey = Some [paragraph]
    /\ _nodeMap s' !! paragraph = Some (seedParagraph rootKey)
    /\ _nodeMap (paragraphDocument 3) !! paragraph = None
    /\ trace c = [Log "clearEditor"; Commit s'; OnUpdate 5%N].
Proof.
  apply (clearEditor_reseeds (mkDocument None)
           (mkEditor (paragraphDocument 3) None) (Some 5%N)
           (mkNode RootNode None [1%N] [] 0)).
  reflexivity.
Defined.

Lemma initEditor_seeds_witness :
  let ed := mkEditor emptyDocument (Some 7%N) in
  let c := initEditor (mkDocument (Some 7%N)) ed in
  result c = Ok tt
  /\ _selection (_editorState (editor c))
     = Some (collapsedIn (fresh (dom (_nodeMap emptyDocument)))).
Proof.
  destruct (initEditor_seeds (mkDocument (Some 7%N))
              (mkEditor emptyDocument (Some 7%N))
              (mkNode RootNode None [] [] 0) eq_refl) as [_ Hseed].
  destruct (Hseed eq_refl) as (Hr & _ & _ & Hsel & _).
  split; [exact Hr|]. apply Hsel. right. reflexivity.
Defined.

(** ** Depth three is enough *)

Lemma total_ret {A} (a : A) : total (ret a).
Proof. intros s. discriminate. Qed.

Lemma total_throw {A} e : total (@throw A e).
Proof. intros s. discriminate. Qed.

Lemma total_emit e : total (emit e).
Proof. intros s. discriminate. Qed.

Lemma total_get : total get.
Proof. intros s. discriminate. Qed.

Lemma total_liftOp f : total (liftOp f).
Proof. intros s. unfold liftOp. destruct (f s); discriminate. Qed.

Lemma total_bind {A B} (m : M A) (f : A -> M B) :
  total m -> (forall a, total (f a)) -> total (bind m f).
Proof.
  intros Hm Hf s. unfold bind.
  destruct (outcome (m s)) eqn:E; simpl; [apply Hf|discriminate|].
  now destruct (Hm s).
Qed.

Lemma total_getSelection : total getSelection.
Proof. intros s. discriminate. Qed.

Lemma total_getNodeByKey k : total (getNodeByKey k).
Proof. intros s. discriminate. Qed.

Create HintDb total.
#[local] Hint Resolve total_ret total_throw total_emit total_get total_liftOp
  total_getSelection total_getNodeByKey : total.

Ltac total_step :=
  match goal with
  | |- total (bind _ _) => apply total_bind; [|intros ?]
  | |- total (if ?b then _ else _) => destruct b
  | |- total (match ?x with _ => _ end) => destruct x
  | |- total _ => solve [eauto with total]
  end.

Lemma total_getLatest k : total (getLatest k).
Proof. unfold getLatest. repeat total_step. Qed.
#[local] Hint Resolve total_getLatest : total.

Lemma total_getNode p : total (getNode p).
Proof. unfold getNode. repeat total_step. Qed.

Lemma total_getParentOrThrow k : total (getParentOrThrow k).
Proof. unfold getParentOrThrow. repeat total_step. Qed.
#[local] Hint Resolve total_getNode total_getParentOrThrow : total.

Lemma total_parentBlockOf `{LexicalCore} p : total (parentBlockOf p).
Proof. unfold parentBlockOf. repeat total_step. Qed.

Lemma total_canInsertTab k : total (canInsertTab k).
Proof. unfold canInsertTab. repeat total_step. Qed.

Lemma total_isElementNode k : total (isElementNode k).
Proof. unfold isElementNode. repeat total_step. Qed.

Lemma total_getIndent k : total (getIndent k).
Proof. unfold getIndent. repeat total_step. Qed.

Lemma total_setIndent k z : total (setIndent k z).
Proof. unfold setIndent. total_step; [auto with total|]. intros s. discriminate. Qed.

Lemma total_get_shiftKey v : total (get_shiftKey v).
Proof. destruct v; simpl; auto with total. Qed.

Lemma total_preventDefault v : total (preventDefault v).
Proof. destruct v; simpl; auto with total. Qed.

#[local] Hint Resolve total_parentBlockOf total_canInsertTab
  total_isElementNode total_getIndent total_setIndent total_get_shiftKey
  total_preventDefault : total.

Section Depth.
Context `{LexicalCore}.

(** The listener runs out of depth only if a command it re-dispatches
  does, and it re-dispatches only commands of lower rank. *)
Lemma commandListener_total exec type_ payload :
(forall type' payload', (rank type' < rank type_)%nat ->
   total (exec type' payload')) ->
total (commandListener exec type_ payload).
Proof.
intros Hexec. unfold commandListener.
apply total_bind; [auto with total|]. intros [sel|]; [|auto with total].
repeat match goal with
| |- total (if (type_ =? ?lit)%string then _ else _) =>
    destruct (String.eqb_spec type_ lit) as [->|?]
end;
repeat first
  [ total_step
  | match goal with
    | |- total (_ (if ?b then _ else _) _) => destruct b
    end
  | apply Hexec; vm_compute; lia ].
Qed.

Lemma rank_le_2 type_ : (rank type_ <= 2)%nat.
Proof.
unfold rank. destruct (type_ =? "keyTab"); [lia|].
destruct (_ || _)%bool; lia.
Qed.

Lemma execCommand_total_at depth type_ payload :
(rank type_ < depth)%nat -> total (execCommand depth type_ payload).
Proof.
revert type_ payload. induction depth as [|depth IH]; intros type_ payload Hr.
- lia.
- apply commandListener_total. intros type' payload' Hlt.
  apply IH. lia.
Qed.

(** With depth [maxDepth] no dispatch through this listener ever runs
  out of depth. *)
Lemma execCommand_total type_ payload : total (execCommand maxDepth type_ payload).
Proof.
apply execCommand_total_at. pose proof (rank_le_2 type_). unfold maxDepth. lia.
Qed.

(** The listener depends on [editor.execCommand] only through the
  commands of lower rank. *)
Lemma commandListener_ext exec exec' type_ payload s :
(forall type' payload' s', (rank type' < rank type_)%nat ->
   exec type' payload' s' = exec' type' payload' s') ->
commandListener exec type_ payload s = commandListener exec' type_ payload s.
Proof.
intros Hexec. unfold commandListener.
apply bind_ext. intros [sel|] s1; [|reflexivity].
repeat match goal with
| |- (if (type_ =? ?lit)%string then _ else _) _ = _ =>
    destruct (String.eqb_spec type_ lit) as [->|?]
end;
try reflexivity;
repeat first
  [ reflexivity
  | apply Hexec; vm_compute; lia
  | match goal with
    | |- (if ?b then _ else _) _ = (if ?b then _ else _) _ => destruct b
    | |- bind ?m _ ?s = bind ?m _ ?s => apply bind_ext; intros ? ?
    | |- bind _ ?f ?s = bind _ ?f ?s => apply bind_at
    | |- _ (if ?b then _ else _) _ _ = _ => destruct b
    end ].
Qed.

(** More depth than the rank asks for changes nothing. *)
Lemma execCommand_deeper depth type_ payload s :
(rank type_ < depth)%nat ->
execCommand (S depth) type_ payload s = execCommand depth type_ payload s.
Proof.
revert type_ payload s.
induction depth as [|depth IH]; intros type_ payload s Hr; [lia|].
change (commandListener (execCommand (S depth)) type_ payload s
        = commandListener (execCommand depth) type_ payload s).
apply commandListener_ext. intros type' payload' s' Hlt.
apply IH. lia.
Qed.

Lemma execCommand_maxDepth extra type_ payload s :
execCommand (extra + maxDepth) type_ payload s
= execCommand maxDepth type_ payload s.
Proof.
induction extra as [|extra IH]; [reflexivity|].
rewrite <- IH. apply execCommand_deeper.
pose proof (rank_le_2 type_). unfold maxDepth. lia.
Qed.

(** So a dispatched command always ends: handled or not, or thrown. *)
Lemma dispatchCommand_ends type_ payload ed :
  result (dispatchCommand type_ payload ed) <> Diverged.
Proof.
  unfold dispatchCommand, update.
  pose proof (execCommand_total type_ payload (_editorState ed)) as Ht.
  destruct (outcome _); simpl; congruence.
Qed.
End Depth.

(** ** Scenarios *)

(** A paragraph at indent 10: [indentContent] is handled and the indent
    stays 10. *)
Example indentContent_at_ceiling :
  @execCommand caretCore maxDepth "indentContent" VUndefined (paragraphDocument 10)
  = mkRun [] (Ok true) (paragraphDocument 10).
Proof. vm_compute. reflexivity. Qed.

(** A command type the switch does not know is declined and changes
    nothing. *)
Example unknown_command_declined :
  @execCommand caretCore maxDepth "scrollToTop" (VBool true) (paragraphDocument 2)
  = mkRun [] (Ok false) (paragraphDocument 2).
Proof. vm_compute. reflexivity. Qed.

(** [keyTab] in a paragraph: the event is consumed and the indent goes up
    by one; with shift it goes down by one. *)
Example keyTab_in_paragraph :
  let r := @execCommand caretCore maxDepth "keyTab" (VEvent plainKey)
             (paragraphDocument 2) in
  let r' := @execCommand caretCore maxDepth "keyTab" (VEvent shiftTab)
              (paragraphDocument 2) in
  (effects r, outcome r, indentOf 1%N (state r))
  = ([PreventDefault plainKey], Ok true, Some 3)
  /\ (effects r', outcome r', indentOf 1%N (state r'))
     = ([PreventDefault shiftTab], Ok true, Some 1).
Proof. vm_compute. split; reflexivity. Qed.

(** Shift and [keyTab] in a code block with a tab before the caret: the
    tab is deleted. *)
Example shift_keyTab_in_code :
  let r := @execCommand caretCore maxDepth "keyTab" (VEvent shiftTab)
             (codeDocument [97%N; tab; 98%N] 2) in
  (effects r, outcome r, __text <$> _nodeMap (state r) !! 2%N,
   _selection (state r))
  = ([PreventDefault shiftTab], Ok true, Some [97%N; 98%N], caretAt 2%N 1).
Proof. vm_compute. reflexivity. Qed.

(** A key command whose payload is not an event fails fast. *)
Example keyEnter_without_event :
  outcome (@execCommand caretCore maxDepth "keyEnter" VUndefined
             (paragraphDocument 0))
  = Throw TypeError.
Proof. vm_compute. reflexivity. Qed.

(** A thrown exception aborts the transaction: the editor is as before,
    the event stays consumed. *)
Example dangling_anchor_aborts :
  let s := mkEditorState (_nodeMap (paragraphDocument 0)) (caretAt 9%N 0) in
  let c := @dispatchCommand caretCore "keyTab" (VEvent plainKey)
             (mkEditor s None) in
  (trace c, result c, editor c)
  = ([PreventDefault plainKey], Throw InvariantError, mkEditor s None).
Proof. vm_compute. reflexivity. Qed.

(** [initEditor] on an empty, unfocused editor seeds one paragraph and
    places no selection; a second call changes nothing. *)
Example initEditor_twice :
  let doc := mkDocument None in
  let ed1 := editor (initEditor doc (mkEditor emptyDocument (Some 7%N))) in
  let ed2 := editor (initEditor doc ed1) in
  (length <$> (__children <$> _nodeMap (_editorState ed1) !! rootKey),
   _selection (_editorState ed1))
  = (Some 1%nat, None)
  /\ ed2 = ed1.
Proof. vm_compute. split; reflexivity. Qed.

(** * More of the listener and of the setup *)

(** ** Commands the claims do not reach *)

(** X1.  A command type that is none of the seventeen [case] labels
    falls through the switch: the listener returns [false] with the
    state as it was and no effect, whatever the payload, the selection
    and the rest of the handler chain. *)
Theorem unknown_command_unhandled `{LexicalCore}
    (exec : string -> value -> M bool) type_ payload s :
  ~ In type_ commandTypes ->
  commandListener exec type_ payload s = mkRun [] (Ok false) s.
Proof.
  intros Hnot.
  destruct (_selection s) as [sel|] eqn:E;
    [|now apply listener_null_selection].
  assert (Hne : forall lit, In lit commandTypes -> (type_ =? lit) = false).
  { intros lit Hin. apply String.eqb_neq. now intros ->. }
  unfold commandListener.
  rewrite (bind_read _ _ s (Some sel)) by now rewrite getSelection_run, E.
  rewrite !Hne by (cbn; repeat first [left; reflexivity | right]).
  reflexivity.
Qed.

Lemma unknown_command_unhandled_witness :
  @commandListener caretCore (fun _ _ => throw TypeError) "selectAll" VNull
    (paragraphDocument 3)
  = mkRun [] (Ok false) (paragraphDocument 3).
Proof.
  apply (@unknown_command_unhandled caretCore).
  cbn. intros Hin.
  repeat (destruct Hin as [Hin|Hin]; [discriminate Hin|]). exact Hin.
Defined.

(** Enter the switch at a literal command type. *)
Ltac enter_case sel E :=
  unfold commandListener;
  rewrite (bind_read _ _ _ (Some sel)) by (now rewrite getSelection_run, E);
  lazy [String.eqb Ascii.eqb Bool.eqb].

(** X2.  The arrow keys, handed a keyboard event.  When
    [$shouldOverrideDefaultCharacterSelection] says no for the direction
    ([true] for left, [false] for right), the listener declines: it
    returns [false], the event is not consumed and nothing changes.
    When it says yes, the event is consumed, [$moveCharacter] is called
    with the event's shift flag and the direction, and the listener
    returns [true]; if [$moveCharacter] throws, the event is consumed
    all the same. *)
Theorem keyArrow_behaviour `{LexicalCore}
    (exec : string -> value -> M bool) e s sel (isBackward : bool) :
  _selection s = Some sel ->
  let type_ : string :=
    if isBackward then "keyArrowLeft" else "keyArrowRight" in
  let r := commandListener exec type_ (VEvent e) s in
  (shouldOverrideDefaultCharacterSelection isBackward s = false ->
     r = mkRun [] (Ok false) s)
  /\ (shouldOverrideDefaultCharacterSelection isBackward s = true ->
      r = match moveCharacter (VBool (shiftKey e)) isBackward s with
          | Some s' => mkRun [PreventDefault e] (Ok true) s'
          | None => mkRun [PreventDefault e] (Throw InvariantError) s
          end).
Proof.
  intros E. cbv zeta. destruct isBackward.
  - enter_case sel E. unfold bind, get_shiftKey, get, ret, preventDefault,
      emit, liftOp. simpl.
    split; intros ->; [reflexivity|].
    simpl. now destruct (moveCharacter _ _ s).
  - enter_case sel E. unfold bind, get_shiftKey, get, ret, preventDefault,
      emit, liftOp. simpl.
    split; intros ->; [reflexivity|].
    simpl. now destruct (moveCharacter _ _ s).
Qed.

Lemma keyArrow_behaviour_witness :
  @commandListener caretCore (fun _ _ => throw TypeError) "keyArrowLeft"
    (VEvent shiftTab) (paragraphDocument 0)
  = mkRun [] (Ok false) (paragraphDocument 0).
Proof.
  apply (@keyArrow_behaviour caretCore (fun _ _ => throw TypeError) shiftTab
           (paragraphDocument 0)
           (mkSelection (mkPoint 2%N 0 text) (mkPoint 2%N 0 text)) true);
    reflexivity.
Defined.

(** X3.  [keyBackspace], [keyDelete], [keyEnter] and [keyTab] handed a
    payload that is not an event fail on [event.preventDefault()]: a
    [TypeError] is thrown before anything is re-dispatched, with no
    effect and the state as it was. *)
Theorem key_command_without_event `{LexicalCore}
    (exec : string -> value -> M bool) type_ payload s sel :
  _selection s = Some sel ->
  In type_ ["keyBackspace"; "keyDelete"; "keyEnter"; "keyTab"] ->
  (forall e, payload <> VEvent e) ->
  commandListener exec type_ payload s = mkRun [] (Throw TypeError) s.
Proof.
  intros E Hin Hp. cbn in Hin.
  assert (Hthrow : preventDefault payload = throw TypeError)
    by (destruct payload; try reflexivity; now destruct (Hp e)).
  destruct Hin as [<-|[<-|[<-|[<-|[]]]]];
    enter_case sel E; rewrite Hthrow; reflexivity.
Qed.

Lemma key_command_without_event_witness :
  @commandListener caretCore (@execCommand caretCore 2) "keyTab"
    (VString [tab]) (paragraphDocument 3)
  = mkRun [] (Throw TypeError) (paragraphDocument 3).
Proof.
  apply (@key_command_without_event caretCore (@execCommand caretCore 2)
           "keyTab" (VString [tab]) (paragraphDocument 3)
           (mkSelection (mkPoint 2%N 0 text) (mkPoint 2%N 0 text)));
    [reflexivity | cbn; tauto | discriminate].
Defined.

(** X4.  The arrow keys handed a payload that is not an event.  Reading
    [shiftKey] off [undefined] or [null] throws a [TypeError] at once.
    Any other value has no [shiftKey] and no [preventDefault]: the
    listener declines with [false] when no override is asked for, and
    throws a [TypeError] on [preventDefault], before [$moveCharacter]
    is reached, when one is.  In every case the state is untouched and
    no effect is performed. *)
Theorem keyArrow_without_event `{LexicalCore}
    (exec : string -> value -> M bool) payload s sel (isBackward : bool) :
  _selection s = Some sel ->
  (forall e, payload <> VEvent e) ->
  let type_ : string :=
    if isBackward then "keyArrowLeft" else "keyArrowRight" in
  commandListener exec type_ payload s
  = mkRun []
      (match payload with
       | VUndefined | VNull => Throw TypeError
       | _ => if shouldOverrideDefaultCharacterSelection isBackward s
              then Throw TypeError else Ok false
       end) s.
Proof.
  intros E Hp. cbv zeta.
  destruct isBackward; enter_case sel E;
    (destruct payload; [| | | | |now destruct (Hp e)]);
    unfold bind, get_shiftKey, get, ret, throw, preventDefault; simpl;
    try reflexivity;
    now destruct (shouldOverrideDefaultCharacterSelection _ s).
Qed.

Lemma keyArrow_without_event_witness :
  @commandListener caretCore (fun _ _ => ret true) "keyArrowRight"
    (VBool true) (paragraphDocument 0)
  = mkRun [] (Ok false) (paragraphDocument 0).
Proof.
  apply (@keyArrow_without_event caretCore (fun _ _ => ret true) (VBool true)
           (paragraphDocument 0)
           (mkSelection (mkPoint 2%N 0 text) (mkPoint 2%N 0 text)) false);
    [reflexivity | discriminate].
Defined.

(** ** Which cases re-dispatch, and how deep *)

Lemma rank_0 type_ :
  ~ In type_ ["indentContent"; "outdentContent"; "keyBackspace"; "keyDelete";
              "keyEnter"; "keyTab"] ->
  rank type_ = 0%nat.
Proof.
  intros Hnot.
  assert (Hne : forall lit,
             In lit ["indentContent"; "outdentContent"; "keyBackspace";
                     "keyDelete"; "keyEnter"; "keyTab"] ->
             (type_ =? lit) = false).
  { intros lit Hin. apply String.eqb_neq. now intros ->. }
  unfold rank.
  rewrite !Hne by (cbn; repeat first [left; reflexivity | right]).
  reflexivity.
Qed.

(** X5.  Only six cases ever call [editor.execCommand]:
    [indentContent], [outdentContent], [keyBackspace], [keyDelete],
    [keyEnter] and [keyTab].  For every other command type, known or
    not, what the listener does is the same whatever handlers are
    registered besides it. *)
Theorem only_six_cases_redispatch `{LexicalCore}
    (exec exec' : string -> value -> M bool) type_ payload s :
  ~ In type_ ["indentContent"; "outdentContent"; "keyBackspace"; "keyDelete";
              "keyEnter"; "keyTab"] ->
  commandListener exec type_ payload s = commandListener exec' type_ payload s.
Proof.
  intros Hnot. apply commandListener_ext.
  intros type' payload' s' Hlt. rewrite (rank_0 type_ Hnot) in Hlt. lia.
Qed.

Lemma only_six_cases_redispatch_witness :
  @commandListener caretCore (fun _ _ => throw TypeError) "formatElement"
    (VString [108%N]) (paragraphDocument 1)
  = @commandListener caretCore (fun _ _ => ret false) "formatElement"
      (VString [108%N]) (paragraphDocument 1).
Proof.
  apply (@only_six_cases_redispatch caretCore).
  cbn. intros Hin.
  repeat (destruct Hin as [Hin|Hin]; [discriminate Hin|]). exact Hin.
Defined.

(** X6.  Re-dispatch never loops.  With this listener as the only
    handler, nesting depth 3 (keyTab, then indentContent or
    outdentContent, then insertText or deleteCharacter) is enough for
    every command type, payload and state: the dispatch ends, and any
    greater depth gives the very same run.  Depth 2 is not enough for
    [keyTab] in a code block. *)
Theorem redispatch_depth_three `{LexicalCore} type_ payload s extra :
  outcome (execCommand maxDepth type_ payload s) <> Diverged
  /\ execCommand (extra + maxDepth) type_ payload s
     = execCommand maxDepth type_ payload s
  /\ outcome (execCommand 2 "keyTab" (VEvent plainKey)
                (codeDocument [97%N] 0)) = Diverged.
Proof.
  split; [apply execCommand_total|].
  split; [apply execCommand_maxDepth|].
  reflexivity.
Qed.

(** ** Host effects *)

Lemma quiet_ret {A} (a : A) : quiet (ret a).
Proof. intros s. reflexivity. Qed.

Lemma quiet_throw {A} e : quiet (@throw A e).
Proof. intros s. reflexivity. Qed.

Lemma quiet_diverge {A} : quiet (@diverge A).
Proof. intros s. reflexivity. Qed.

Lemma quiet_get : quiet get.
Proof. intros s. reflexivity. Qed.

Lemma quiet_getSelection : quiet getSelection.
Proof. intros s. reflexivity. Qed.

Lemma quiet_getNodeByKey k : quiet (getNodeByKey k).
Proof. intros s. reflexivity. Qed.

Lemma quiet_liftOp f : quiet (liftOp f).
Proof. intros s. unfold liftOp. now destruct (f s). Qed.

Lemma quiet_bind {A B} (m : M A) (f : A -> M B) :
  quiet m -> (forall a, quiet (f a)) -> quiet (bind m f).
Proof.
  intros Hm Hf s. unfold bind. rewrite (Hm s).
  destruct (outcome (m s)); simpl; [apply Hf|reflexivity|reflexivity].
Qed.

Create HintDb quiet.
#[local] Hint Resolve quiet_ret quiet_throw quiet_diverge quiet_get
  quiet_getSelection quiet_getNodeByKey quiet_liftOp : quiet.

Ltac quiet_step :=
  match goal with
  | |- quiet (bind _ _) => apply quiet_bind; [|intros ?]
  | |- quiet (if ?b then _ else _) => destruct b
  | |- quiet (match ?x with _ => _ end) => destruct x
  | |- quiet _ => solve [eauto with quiet]
  end.

Lemma quiet_getLatest k : quiet (getLatest k).
Proof. unfold getLatest. repeat quiet_step. Qed.
#[local] Hint Resolve quiet_getLatest : quiet.

Lemma quiet_getNode p : quiet (getNode p).
Proof. unfold getNode. repeat quiet_step. Qed.

Lemma quiet_getParentOrThrow k : quiet (getParentOrThrow k).
Proof. unfold getParentOrThrow. repeat quiet_step. Qed.
#[local] Hint Resolve quiet_getNode quiet_getParentOrThrow : quiet.

Lemma quiet_parentBlockOf `{LexicalCore} p : quiet (parentBlockOf p).
Proof. unfold parentBlockOf. repeat quiet_step. Qed.

Lemma quiet_canInsertTab k : quiet (canInsertTab k).
Proof. unfold canInsertTab. repeat quiet_step. Qed.

Lemma quiet_isElementNode k : quiet (isElementNode k).
Proof. unfold isElementNode. repeat quiet_step. Qed.

Lemma quiet_getIndent k : quiet (getIndent k).
Proof. unfold getIndent. repeat quiet_step. Qed.

Lemma quiet_setIndent k z : quiet (setIndent k z).
Proof.
  unfold setIndent. quiet_step; [auto with quiet|]. intros s. reflexivity.
Qed.

Lemma quiet_get_shiftKey v : quiet (get_shiftKey v).
Proof. destruct v; simpl; auto with quiet. Qed.

#[local] Hint Resolve quiet_parentBlockOf quiet_canInsertTab
  quiet_isElementNode quiet_getIndent quiet_setIndent quiet_get_shiftKey
  : quiet.

Lemma quiet_consumesOnly {A} payload (m : M A) :
  quiet m -> consumesOnly payload m.
Proof. intros Hm s. left. apply Hm. Qed.

Lemma consumesOnly_bind {A B} payload (m : M A) (f : A -> M B) :
  quiet m -> (forall a, consumesOnly payload (f a)) ->
  consumesOnly payload (bind m f).
Proof.
  intros Hm Hf s. unfold bind. rewrite (Hm s).
  destruct (outcome (m s)); simpl; [apply Hf|now left|now left].
Qed.

Lemma consumesOnly_preventDefault {B} payload (f : unit -> M B) :
  (forall a, quiet (f a)) ->
  consumesOnly payload (bind (preventDefault payload) f).
Proof.
  intros Hf s. destruct payload; try (now left).
  right. exists e. split; [reflexivity|].
  change (preventDefault (VEvent e)) with (emit (PreventDefault e)).
  rewrite bind_emit. simpl. now rewrite (Hf tt s).
Qed.

Section Effects.
Context `{LexicalCore}.

Lemma commandListener_quiet exec type_ payload :
  ~ In type_ keyTypes ->
  (forall type' payload', ~ In type' keyTypes -> quiet (exec type' payload')) ->
  quiet (commandListener exec type_ payload).
Proof.
  intros Hnk Hexec. unfold commandListener.
  apply quiet_bind; [auto with quiet|]. intros [sel|]; [|auto with quiet].
  repeat match goal with
  | |- quiet (if (type_ =? ?lit)%string then _ else _) =>
      destruct (String.eqb_spec type_ lit) as [->|?]
  end;
  try (exfalso; apply Hnk; cbn; solve [repeat first [left; reflexivity | right]]);
  repeat first
    [ quiet_step
    | apply Hexec; cbn; intros Hin;
      repeat (destruct Hin as [Hin|Hin]; [discriminate Hin|]); exact Hin ].
Qed.

Lemma execCommand_quiet depth type_ payload :
  ~ In type_ keyTypes -> quiet (execCommand depth type_ payload).
Proof.
  revert type_ payload. induction depth as [|depth IH]; intros type_ payload Hnk.
  - apply quiet_diverge.
  - apply commandListener_quiet; [done|]. intros. now apply IH.
Qed.

Lemma commandListener_consumesOnly exec type_ payload :
  (forall type' payload', ~ In type' keyTypes -> quiet (exec type' payload')) ->
  consumesOnly payload (commandListener exec type_ payload).
Proof.
  intros Hexec.
  destruct (in_dec string_dec type_ keyTypes) as [Hin|Hnk];
    [|now apply quiet_consumesOnly, commandListener_quiet].
  assert (Hq : forall t p,
             In t ["deleteCharacter"; "insertLineBreak"; "insertParagraph";
                   "indentContent"; "outdentContent"] ->
             quiet (exec t p)).
  { intros t p Ht. apply Hexec. cbn in *. intros Hk.
    repeat (destruct Ht as [<-|Ht]; [clear -Hk; repeat (destruct Hk as [Hk|Hk]; [discriminate Hk|]); exact Hk|]).
    exact Ht. }
  unfold commandListener.
  apply consumesOnly_bind; [auto with quiet|].
  intros [sel|]; [|apply quiet_consumesOnly; auto with quiet].
  cbn in Hin.
  destruct Hin as [<-|[<-|[<-|[<-|[<-|[<-|[]]]]]]];
    lazy [String.eqb Ascii.eqb Bool.eqb];
    repeat first
      [ apply consumesOnly_preventDefault; intros ?
      | apply consumesOnly_bind; [solve [auto with quiet]|intros ?]
      | match goal with
        | |- consumesOnly _ (if ?b then _ else _) => destruct b
        | |- quiet (_ (if ?b then _ else _) _) => destruct b
        end
      | apply quiet_consumesOnly
      | quiet_step
      | apply Hq; cbn; solve [repeat first [left; reflexivity | right]] ].
Qed.
End Effects.

(** X7.  A dispatch through this listener never consumes an event other
    than the one it was handed, and that one at most once: its trace is
    empty, or the payload is a keyboard event and the trace is exactly
    one [preventDefault] on it.  Commands other than the six key
    commands never consume anything. *)
Theorem dispatch_consumes_only_its_event `{LexicalCore} type_ payload s :
  let r := execCommand maxDepth type_ payload s in
  (effects r = []
   \/ exists e, payload = VEvent e /\ effects r = [PreventDefault e])
  /\ (~ In type_ keyTypes -> effects r = []).
Proof.
  cbv zeta. split.
  - exact (commandListener_consumesOnly (execCommand 2) type_ payload
             (fun t p Hnk => execCommand_quiet 2 t p Hnk) s).
  - intros Hnk. exact (execCommand_quiet maxDepth type_ payload Hnk s).
Qed.

(** ** When the listener declines *)

Lemma then_true_not_false {A} (m : M A) s :
  outcome ((m ;;; ret true) s) <> Ok false.
Proof. unfold bind, ret. now destruct (outcome (m s)). Qed.

Lemma bind_not_false {A} (m : M A) (f : A -> M bool) s :
  (forall a s', outcome (f a s') <> Ok false) ->
  outcome (bind m f s) <> Ok false.
Proof.
  intros Hf. unfold bind. destruct (outcome (m s)); simpl; [apply Hf|done|done].
Qed.

Lemma bind_reads_not_false {A} (m : M A) (f : A -> M bool) s :
  state (m s) = s ->
  (forall a, outcome (f a s) <> Ok false) ->
  outcome (bind m f s) <> Ok false.
Proof.
  intros Hm Hf. unfold bind.
  destruct (outcome (m s)); simpl; [rewrite Hm; apply Hf|done|done].
Qed.

Lemma preventDefault_reads payload s : state (preventDefault payload s) = s.
Proof. now destruct payload. Qed.

Lemma get_shiftKey_reads payload s : state (get_shiftKey payload s) = s.
Proof. now destruct payload. Qed.

Section Declines.
Context `{LexicalCore}.

Lemma commandListener_not_false exec type_ payload s sel :
  _selection s = Some sel ->
  In type_ commandTypes ->
  type_ <> "keyArrowLeft" -> type_ <> "keyArrowRight" ->
  (forall type' payload',
     In type' ["deleteCharacter"; "insertLineBreak"; "insertParagraph";
               "indentContent"; "outdentContent"] ->
     outcome (exec type' payload' s) <> Ok false) ->
  outcome (commandListener exec type_ payload s) <> Ok false.
Proof.
  intros E Hin Hl Hr Hexec. cbn in Hin.
  repeat (destruct Hin as [<-|Hin];
    [ try congruence; enter_case sel E;
      repeat first
        [ apply then_true_not_false
        | apply bind_reads_not_false;
          [solve [apply preventDefault_reads | apply get_shiftKey_reads]
          |intros ?]
        | apply bind_not_false; intros ? ?
        | match goal with
          | |- context [truthy ?a] => destruct (truthy a)
          end
        | apply Hexec; cbn; solve [repeat first [left; reflexivity | right]] ]
    |]).
  destruct Hin.
Qed.

Lemma execCommand_not_false depth type_ payload s sel :
  _selection s = Some sel ->
  In type_ commandTypes ->
  type_ <> "keyArrowLeft" -> type_ <> "keyArrowRight" ->
  outcome (execCommand depth type_ payload s) <> Ok false.
Proof.
  intros E. revert type_ payload.
  induction depth as [|depth IH]; intros type_ payload Hin Hl Hr; [done|].
  exact (commandListener_not_false (execCommand depth) type_ payload s sel
           E Hin Hl Hr
           (fun t p Ht => IH t p
              ltac:(cbn in *; repeat (destruct Ht as [<-|Ht];
                       [solve [repeat first [left; reflexivity | right]]|]);
                    destruct Ht)
              ltac:(cbn in Ht; intros ->;
                    repeat (destruct Ht as [Ht|Ht]; [discriminate Ht|]);
                    exact Ht)
              ltac:(cbn in Ht; intros ->;
                    repeat (destruct Ht as [Ht|Ht]; [discriminate Ht|]);
                    exact Ht))).
Qed.

Lemma keyArrow_false_means_no_override exec payload s sel (isBackward : bool) :
  _selection s = Some sel ->
  outcome (commandListener exec
             (if isBackward then "keyArrowLeft" else "keyArrowRight")
             payload s) = Ok false ->
  shouldOverrideDefaultCharacterSelection isBackward s = false.
Proof.
  intros E. destruct isBackward; enter_case sel E;
    unfold bind, get_shiftKey, get, ret, throw, preventDefault, emit, liftOp;
    destruct payload; simpl; try discriminate;
    destruct (shouldOverrideDefaultCharacterSelection _ s); simpl;
    try discriminate; try reflexivity;
    destruct (moveCharacter _ _ s); simpl; discriminate.
Qed.
End Declines.

(** X8.  With a selection, a dispatch through this listener answers
    [false] only for a command type the switch does not know, or for an
    arrow key when [$shouldOverrideDefaultCharacterSelection] says no
    for its direction.  Every other command is reported handled
    whenever it returns at all. *)
Theorem declines_only_unknown_or_arrow `{LexicalCore} type_ payload s sel :
  _selection s = Some sel ->
  outcome (execCommand maxDepth type_ payload s) = Ok false ->
  ~ In type_ commandTypes
  \/ (type_ = "keyArrowLeft"
      /\ shouldOverrideDefaultCharacterSelection true s = false)
  \/ (type_ = "keyArrowRight"
      /\ shouldOverrideDefaultCharacterSelection false s = false).
Proof.
  intros E Hfalse.
  destruct (in_dec string_dec type_ commandTypes) as [Hin|Hnot]; [|now left].
  right.
  destruct (string_dec type_ "keyArrowLeft") as [->|Hl].
  { left. split; [reflexivity|].
    exact (keyArrow_false_means_no_override (execCommand 2) payload s sel true
             E Hfalse). }
  destruct (string_dec type_ "keyArrowRight") as [->|Hr].
  { right. split; [reflexivity|].
    exact (keyArrow_false_means_no_override (execCommand 2) payload s sel false
             E Hfalse). }
  now destruct (execCommand_not_false maxDepth type_ payload s sel E Hin Hl Hr).
Qed.

Lemma declines_only_unknown_or_arrow_witness :
  ~ In "keyArrowLeft" commandTypes
  \/ ("keyArrowLeft" = "keyArrowLeft"
      /\ @shouldOverrideDefaultCharacterSelection caretCore true
           (paragraphDocument 0) = false)
  \/ ("keyArrowLeft" = "keyArrowRight"
      /\ @shouldOverrideDefaultCharacterSelection caretCore false
           (paragraphDocument 0) = false).
Proof.
  apply (@declines_only_unknown_or_arrow caretCore "keyArrowLeft"
           (VEvent plainKey) (paragraphDocument 0)
           (mkSelection (mkPoint 2%N 0 text) (mkPoint 2%N 0 text)));
    reflexivity.
Defined.

(** ** The indent bound, for every command *)

Lemma keepsIndent_reads {A} k (m : M A) :
  (forall s, state (m s) = s) -> keepsIndent k m.
Proof. intros Hm s Hs. now rewrite Hm. Qed.

Lemma keepsIndent_bind {A B} k (m : M A) (f : A -> M B) :
  keepsIndent k m -> (forall a, keepsIndent k (f a)) ->
  keepsIndent k (bind m f).
Proof.
  intros Hm Hf s Hs. unfold bind. specialize (Hm s Hs).
  destruct (outcome (m s)); simpl; [now apply Hf|done|done].
Qed.

Lemma keepsIndent_liftOp k f :
  (forall s s', f s = Some s' -> indentInRange k s -> indentInRange k s') ->
  keepsIndent k (liftOp f).
Proof.
  intros Hf s Hs. unfold liftOp. destruct (f s) eqn:E; simpl; eauto.
Qed.

Lemma getLatest_reads k s : state (getLatest k s) = s.
Proof.
  unfold getLatest, bind, getNodeByKey. simpl. now destruct (_nodeMap s !! k).
Qed.

Lemma getNode_reads p s : state (getNode p s) = s.
Proof.
  unfold getNode, bind. rewrite getLatest_reads.
  now destruct (outcome (getLatest (key p) s)).
Qed.

Lemma isElementNode_reads k s : state (isElementNode k s) = s.
Proof.
  unfold isElementNode, bind. rewrite getLatest_reads.
  now destruct (outcome (getLatest k s)).
Qed.

Section EveryCommand.
Context `{LexicalCore}.
Hypothesis core_keeps : coreKeepsIndent.

Ltac by_core :=
  apply keepsIndent_liftOp;
  let s0 := fresh "s" in let s1 := fresh "s" in
  let Hop := fresh "Hop" in let Hin := fresh "Hin" in
  intros s0 s1 Hop Hin;
  destruct (core_keeps _ s0 s1 Hin) as (?&?&?&?&?&?&?&?&?&?); eauto.

Lemma commandListener_keepsIndent exec type_ payload :
  (forall k type' payload', keepsIndent k (exec type' payload')) ->
  forall k, keepsIndent k (commandListener exec type_ payload).
Proof.
  intros Hexec k.
  destruct (string_dec type_ "indentContent") as [->|Hi].
  { intros s Hs. apply listener_indentContent_in_range; [|done].
    intros k' s' Hs'. now apply Hexec. }
  destruct (string_dec type_ "outdentContent") as [->|Ho].
  { intros s Hs. apply listener_outdentContent_in_range; [|done].
    intros k' s' Hs'. now apply Hexec. }
  unfold commandListener.
  apply keepsIndent_bind; [now apply keepsIndent_reads|].
  intros [sel|]; [|now apply keepsIndent_reads].
  repeat match goal with
  | |- keepsIndent _ (if (type_ =? ?lit)%string then _ else _) =>
      destruct (String.eqb_spec type_ lit) as [->|?]
  end;
  try congruence;
  repeat first
    [ solve [ apply keepsIndent_reads; intros ?;
              first [ apply getNode_reads | apply isElementNode_reads
                    | apply (proj1 (getParentOrThrow_reads _ _))
                    | apply preventDefault_reads | apply get_shiftKey_reads
                    | reflexivity ] ]
    | apply Hexec
    | by_core
    | match goal with
      | |- keepsIndent _ (if ?b then _ else _) => destruct b
      | |- keepsIndent _ (_ (if ?b then _ else _) _) => destruct b
      | |- keepsIndent _ (bind _ _) => apply keepsIndent_bind; [|intros ?]
      end ].
Qed.

Lemma execCommand_keepsIndent depth type_ payload k :
  keepsIndent k (execCommand depth type_ payload).
Proof.
  revert type_ payload k. induction depth as [|depth IH]; intros type_ payload k.
  - now apply keepsIndent_reads.
  - exact (commandListener_keepsIndent (execCommand depth) type_ payload
             (fun k t p => IH t p k) k).
Qed.

Lemma dispatchAll_keepsIndent commands ed k :
  indentInRange k (_editorState ed) ->
  indentInRange k (_editorState (dispatchAll commands ed)).
Proof.
  revert ed. induction commands as [|[type_ payload] rest IH]; intros ed Hs;
    [exact Hs|].
  simpl. apply IH. unfold dispatchCommand, update.
  pose proof (execCommand_keepsIndent maxDepth type_ payload k
                (_editorState ed) Hs) as Hr.
  destruct (outcome _); simpl; done.
Qed.
End EveryCommand.

Lemma caretCore_keepsIndent : @coreKeepsIndent caretCore.
Proof.
  intros k s s' Hs. simpl.
  repeat split; intros;
    first [ eapply caretInsertText_in_range; eassumption
          | eapply caretDeleteCharacter_in_range; eassumption
          | congruence ].
Qed.

(** X9.  No command of the listener takes an indent out of range.  If
    each primitive of the editor core leaves every indent within
    [0, 10], then so does every sequence of dispatches through this
    listener, whatever the command types and payloads: the only
    [setIndent] calls of the file are the two guarded ones. *)
Theorem every_command_keeps_indent `{LexicalCore} commands ed k :
  coreKeepsIndent ->
  indentInRange k (_editorState ed) ->
  indentInRange k (_editorState (dispatchAll commands ed)).
Proof. intros Hcore. now apply dispatchAll_keepsIndent. Qed.

Lemma every_command_keeps_indent_witness :
  indentInRange 1%N
    (_editorState
       (@dispatchAll caretCore
          [("keyTab", VEvent plainKey); ("insertText", VString [tab]);
           ("formatElement", VNull); ("keyTab", VEvent shiftTab);
           ("keyEnter", VUndefined)]
          (mkEditor (paragraphDocument 10) None))).
Proof.
  apply (@every_command_keeps_indent caretCore).
  - exact caretCore_keepsIndent.
  - vm_compute. split; discriminate.
Defined.

(** ** A block that does not accept tabs is a saturating counter *)

Lemma acceptsTab_withIndent z n : acceptsTab (withIndent z n) = acceptsTab n.
Proof. reflexivity. Qed.

Section PlainBlock.
Context `{LexicalCore}.

Lemma dispatch_step_plain type_ payload ed sel k n :
  _selection (_editorState ed) = Some sel ->
  outcome (parentBlockOf (anchor sel) (_editorState ed)) = Ok k ->
  _nodeMap (_editorState ed) !! k = Some n ->
  acceptsTab n = false ->
  type_ = "indentContent" \/ type_ = "outdentContent" ->
  editor (dispatchCommand type_ payload ed)
  = mkEditor (withIndentAt k n (levelStep (__indent n) type_) (_editorState ed))
             (_rootElement ed).
Proof.
  intros E Hk Hn Ht [-> | ->].
  - rewrite (dispatch_indent_plain _ ed sel k n) by done.
    change (levelStep (__indent n) "indentContent")
      with (if (__indent n =? 10)%Z then __indent n else __indent n + 1).
    destruct (__indent n =? 10)%Z; [|reflexivity].
    now rewrite withIndentAt_same.
  - rewrite (dispatch_outdent_plain _ ed sel k n) by done.
    change (levelStep (__indent n) "outdentContent")
      with (if (__indent n =? 0)%Z then __indent n else __indent n - 1).
    destruct (__indent n =? 0)%Z; [|reflexivity].
    now rewrite withIndentAt_same.
Qed.

Lemma dispatchAll_plain commands : forall ed sel k n,
  _selection (_editorState ed) = Some sel ->
  outcome (parentBlockOf (anchor sel) (_editorState ed)) = Ok k ->
  _nodeMap (_editorState ed) !! k = Some n ->
  acceptsTab n = false ->
  Forall (fun c => fst c = "indentContent" \/ fst c = "outdentContent")
         commands ->
  dispatchAll commands ed
  = mkEditor (withIndentAt k n (levelAfter commands (__indent n))
                (_editorState ed))
             (_rootElement ed).
Proof.
  induction commands as [|[type_ payload] rest IH];
    intros ed sel k n E Hk Hn Ht Hall.
  - simpl. rewrite withIndentAt_same by done. now destruct ed.
  - inversion Hall as [|c l Hc Hrest]; subst. simpl in Hc.
    cbn [dispatchAll].
    rewrite (dispatch_step_plain type_ payload ed sel k n) by done.
    set (z := levelStep (__indent n) type_).
    rewrite (IH _ sel k (withIndent z n)); simpl; try done.
    + now rewrite withIndentAt_twice.
    + now rewrite parentBlockOf_withIndentAt.
    + apply lookup_insert_eq.
Qed.
End PlainBlock.

Lemma levelAfter_indents payload (m : nat) level :
  level <= 10 ->
  levelAfter (repeat ("indentContent", payload) m) level
  = Z.min 10 (level + Z.of_nat m).
Proof.
  revert level. induction m as [|m IH]; intros level Hle.
  - simpl. lia.
  - change (levelAfter (repeat ("indentContent", payload) (S m)) level)
      with (levelAfter (repeat ("indentContent", payload) m)
              (if (level =? 10)%Z then level else level + 1)).
    destruct (Z.eqb_spec level 10); rewrite IH; lia.
Qed.

Lemma levelAfter_outdents payload (m : nat) level :
  0 <= level ->
  levelAfter (repeat ("outdentContent", payload) m) level
  = Z.max 0 (level - Z.of_nat m).
Proof.
  revert level. induction m as [|m IH]; intros level Hle.
  - simpl. lia.
  - change (levelAfter (repeat ("outdentContent", payload) (S m)) level)
      with (levelAfter (repeat ("outdentContent", payload) m)
              (if (level =? 0)%Z then level else level - 1)).
    destruct (Z.eqb_spec level 0); rewrite IH; lia.
Qed.

(** X10.  On a block that does not accept tabs, any sequence of
    [indentContent] and [outdentContent] dispatches changes the editor
    in one place only: the indent of that block, which ends at the value
    a counter reaches when it steps up unless at 10 and down unless at
    0.  The other nodes, the block's type, parent, children and text,
    the selection and the root element are as before. *)
Theorem plain_block_counter `{LexicalCore} commands ed sel k n :
  _selection (_editorState ed) = Some sel ->
  outcome (parentBlockOf (anchor sel) (_editorState ed)) = Ok k ->
  _nodeMap (_editorState ed) !! k = Some n ->
  acceptsTab n = false ->
  Forall (fun c => fst c = "indentContent" \/ fst c = "outdentContent")
         commands ->
  dispatchAll commands ed
  = mkEditor (withIndentAt k n (levelAfter commands (__indent n))
                (_editorState ed))
             (_rootElement ed).
Proof. intros. now apply (dispatchAll_plain commands ed sel k n). Qed.

Lemma plain_block_counter_witness :
  @dispatchAll caretCore
    [("indentContent", VUndefined); ("indentContent", VUndefined);
     ("outdentContent", VNull); ("indentContent", VUndefined)]
    (mkEditor (paragraphDocument 9) None)
  = mkEditor (paragraphDocument 10) None.
Proof.
  rewrite (@plain_block_counter caretCore _ (mkEditor (paragraphDocument 9) None)
             (mkSelection (mkPoint 2%N 0 text) (mkPoint 2%N 0 text))
             1%N (mkNode ParagraphNode (Some 0%N) [2%N] [] 9)
             eq_refl eq_refl eq_refl eq_refl).
  - vm_compute. reflexivity.
  - repeat (constructor; [simpl; auto|]). constructor.
Defined.

(** X11.  Repeating the command saturates.  On a block that does not
    accept tabs, with indent [i] in [0, 10], [m] dispatches of
    [indentContent] leave the indent at [min 10 (i + m)] and [m]
    dispatches of [outdentContent] leave it at [max 0 (i - m)]. *)
Theorem repeated_indent_saturates `{LexicalCore} payload (m : nat) ed sel k n :
  _selection (_editorState ed) = Some sel ->
  outcome (parentBlockOf (anchor sel) (_editorState ed)) = Ok k ->
  _nodeMap (_editorState ed) !! k = Some n ->
  acceptsTab n = false ->
  0 <= __indent n <= 10 ->
  indentOf k (_editorState
                (dispatchAll (repeat ("indentContent", payload) m) ed))
  = Some (Z.min 10 (__indent n + Z.of_nat m))
  /\ indentOf k (_editorState
                   (dispatchAll (repeat ("outdentContent", payload) m) ed))
     = Some (Z.max 0 (__indent n - Z.of_nat m)).
Proof.
  intros E Hk Hn Ht Hrange. split.
  - rewrite (dispatchAll_plain _ ed sel k n) by
      (try done; apply List.Forall_forall; intros c Hc;
       apply repeat_spec in Hc; subst; now left).
    simpl. rewrite indentOf_withIndentAt, levelAfter_indents; [done|lia].
  - rewrite (dispatchAll_plain _ ed sel k n) by
      (try done; apply List.Forall_forall; intros c Hc;
       apply repeat_spec in Hc; subst; now right).
    simpl. rewrite indentOf_withIndentAt, levelAfter_outdents; [done|lia].
Qed.

Lemma repeated_indent_saturates_witness :
  indentOf 1%N (_editorState
     (@dispatchAll caretCore (repeat ("indentContent", VUndefined) 5)
        (mkEditor (paragraphDocument 7) None)))
  = Some 10.
Proof.
  apply (@repeated_indent_saturates caretCore VUndefined 5
           (mkEditor (paragraphDocument 7) None)
           (mkSelection (mkPoint 2%N 0 text) (mkPoint 2%N 0 text))
           1%N (mkNode ParagraphNode (Some 0%N) [2%N] [] 7));
    try reflexivity; simpl; lia.
Defined.

(** X12.  The other order.  On a block that does not accept tabs, with
    indent [n] in [1, 10], [outdentContent] followed by [indentContent]
    gives back the editor exactly as it was; at the floor [n = 0] the
    outdent step changes nothing and the pair ends at 1. *)
Theorem outdent_then_indent `{LexicalCore} payload1 payload2 ed sel k n :
  _selection (_editorState ed) = Some sel ->
  outcome (parentBlockOf (anchor sel) (_editorState ed)) = Ok k ->
  _nodeMap (_editorState ed) !! k = Some n ->
  acceptsTab n = false ->
  0 <= __indent n <= 10 ->
  let ed' := dispatchAll [("outdentContent", payload1);
                          ("indentContent", payload2)] ed in
  (1 <= __indent n -> ed' = ed)
  /\ (__indent n = 0 -> indentOf k (_editorState ed') = Some 1).
Proof.
  intros E Hk Hn Ht Hrange. cbv zeta.
  rewrite (dispatchAll_plain _ ed sel k n) by
    (try done; repeat (constructor; [simpl; auto|]); constructor).
  change (levelAfter [("outdentContent", payload1); ("indentContent", payload2)]
            (__indent n))
    with (let z := (if (__indent n =? 0)%Z then __indent n else __indent n - 1) in
          if (z =? 10)%Z then z else z + 1).
  cbv zeta. split.
  - intros Hpos.
    destruct (Z.eqb_spec (__indent n) 0); [lia|].
    destruct (Z.eqb_spec (__indent n - 1) 10); [lia|].
    replace (__indent n - 1 + 1) with (__indent n) by lia.
    rewrite withIndentAt_same by done. now destruct ed.
  - intros ->. simpl. apply indentOf_withIndentAt.
Qed.

Lemma outdent_then_indent_witness :
  @dispatchAll caretCore
    [("outdentContent", VUndefined); ("indentContent", VUndefined)]
    (mkEditor (paragraphDocument 10) (Some 3%N))
  = mkEditor (paragraphDocument 10) (Some 3%N).
Proof.
  apply (@outdent_then_indent caretCore VUndefined VUndefined
           (mkEditor (paragraphDocument 10) (Some 3%N))
           (mkSelection (mkPoint 2%N 0 text) (mkPoint 2%N 0 text))
           1%N (mkNode ParagraphNode (Some 0%N) [2%N] [] 10));
    try reflexivity; simpl; lia.
Defined.

(** ** Resolution failures and other edges of the block cases *)

Section BlockEdges.
Context `{LexicalCore}.

Lemma parentBlockOf_Throw p s e :
  outcome (parentBlockOf p s) = Throw e ->
  parentBlockOf p s = mkRun [] (Throw e) s.
Proof.
  intros E. destruct (parentBlockOf_reads p s) as [Hs He].
  rewrite <- (run_eta (parentBlockOf p s)). now rewrite Hs, He, E.
Qed.

Lemma listener_indent_outdent_throws exec type_ payload s sel :
  _selection s = Some sel ->
  type_ = "indentContent" \/ type_ = "outdentContent" ->
  outcome (parentBlockOf (anchor sel) s) = Throw InvariantError ->
  commandListener exec type_ payload s = mkRun [] (Throw InvariantError) s.
Proof.
  intros E Ht Hk. apply parentBlockOf_Throw in Hk.
  destruct Ht as [-> | ->]; enter_case sel E.
  - now rewrite (bind_throw _ _ s [] InvariantError s Hk).
  - destruct (_nodeMap s !! key (anchor sel)) as [a|] eqn:Ha.
    + rewrite (bind_read _ _ s (key (anchor sel)))
        by now apply (getNode_Some _ _ a).
      now rewrite (bind_throw _ _ s [] InvariantError s Hk).
    + now rewrite (bind_throw _ _ s [] InvariantError s)
        by now apply getNode_None.
Qed.
End BlockEdges.

(** X13.  [indentContent] and [outdentContent] with an anchor that does
    not lead to a block: the anchor's node is not in the snapshot, or
    the anchor is a text point whose node has no parent or a parent that
    is not in the snapshot.  The listener throws before it reads any
    indent and before any re-dispatch; the state is untouched, and the
    dispatch as a whole leaves the editor as it was. *)
Theorem indent_without_parent_block `{LexicalCore}
    (exec : string -> value -> M bool) type_ payload ed sel :
  let s := _editorState ed in
  _selection s = Some sel ->
  type_ = "indentContent" \/ type_ = "outdentContent" ->
  (_nodeMap s !! key (anchor sel) = None
   \/ (type (anchor sel) = text
       /\ exists a, _nodeMap s !! key (anchor sel) = Some a
          /\ (__parent a = None
              \/ exists pk, __parent a = Some pk /\ _nodeMap s !! pk = None))) ->
  commandListener exec type_ payload s = mkRun [] (Throw InvariantError) s
  /\ dispatchCommand type_ payload ed = mkCompleted [] (Throw InvariantError) ed.
Proof.
  intros s E Ht Hbad.
  assert (Hk : outcome (parentBlockOf (anchor sel) s) = Throw InvariantError).
  { rewrite parentBlockOf_outcome.
    destruct Hbad as [-> | (Htext & a & -> & [-> | (pk & -> & ->)])];
      [reflexivity | now rewrite Htext | now rewrite Htext]. }
  split; [now apply (listener_indent_outdent_throws _ _ _ _ sel)|].
  unfold dispatchCommand, update.
  change (execCommand maxDepth type_ payload (_editorState ed))
    with (commandListener (execCommand 2) type_ payload s).
  now rewrite (listener_indent_outdent_throws _ _ _ _ sel E Ht Hk).
Qed.

Lemma indent_without_parent_block_witness :
  let s := mkEditorState (_nodeMap (paragraphDocument 4)) (caretAt 9%N 0) in
  @dispatchCommand caretCore "indentContent" VUndefined (mkEditor s None)
  = mkCompleted [] (Throw InvariantError) (mkEditor s None).
Proof.
  apply (@indent_without_parent_block caretCore (@execCommand caretCore 2)
           "indentContent" VUndefined
           (mkEditor (mkEditorState (_nodeMap (paragraphDocument 4))
                        (caretAt 9%N 0)) None)
           (mkSelection (mkPoint 9%N 0 text) (mkPoint 9%N 0 text)));
    [reflexivity | now left | now left].
Defined.

(** X14.  [formatElement] picks its target by the kind of the anchor's
    node, not by the anchor's type tag: the node itself when it is a
    container, its parent otherwise (throwing when there is none).  The
    payload goes to [setFormat] on that target and the listener returns
    [true].  Whenever the tag agrees with the node (an element point on
    a container, a text point on a leaf), the target is the very block
    [indentContent] and [outdentContent] resolve. *)
Theorem formatElement_target `{LexicalCore}
    (exec : string -> value -> M bool) payload s sel a :
  _selection s = Some sel ->
  _nodeMap s !! key (anchor sel) = Some a ->
  let r := commandListener exec "formatElement" payload s in
  (isElement a = true ->
     r = (liftOp (setFormat (key (anchor sel)) payload) ;;; ret true) s)
  /\ (isElement a = false ->
      r = match __parent a with
          | Some pk =>
              match _nodeMap s !! pk with
              | Some _ => (liftOp (setFormat pk payload) ;;; ret true) s
              | None => mkRun [] (Throw InvariantError) s
              end
          | None => mkRun [] (Throw InvariantError) s
          end)
  /\ ((type (anchor sel) = element <-> isElement a = true) ->
      forall k, outcome (parentBlockOf (anchor sel) s) = Ok k ->
        r = (liftOp (setFormat k payload) ;;; ret true) s).
Proof.
  intros E Ha. cbv zeta.
  assert (Hbody :
    commandListener exec "formatElement" payload s
    = if isElement a
      then (liftOp (setFormat (key (anchor sel)) payload) ;;; ret true) s
      else match __parent a with
           | Some pk =>
               match _nodeMap s !! pk with
               | Some _ => (liftOp (setFormat pk payload) ;;; ret true) s
               | None => mkRun [] (Throw InvariantError) s
               end
           | None => mkRun [] (Throw InvariantError) s
           end).
  { enter_case sel E.
    rewrite (bind_read _ _ s (key (anchor sel)))
      by now apply (getNode_Some _ _ a).
    rewrite (bind_read _ _ s (isElement a)).
    2:{ unfold isElementNode.
        now rewrite (bind_read _ _ s a) by now apply getLatest_Some. }
    destruct (isElement a).
    - now rewrite (bind_read _ _ s (key (anchor sel))) by reflexivity.
    - unfold getParentOrThrow.
      rewrite bind_assoc.
      rewrite (bind_read _ _ s a) by now apply getLatest_Some.
      destruct (__parent a) as [pk|]; [|reflexivity].
      rewrite bind_assoc. unfold getNodeByKey at 1.
      rewrite (bind_read _ _ s (_nodeMap s !! pk)) by reflexivity.
      destruct (_nodeMap s !! pk); [|reflexivity].
      now rewrite (bind_read _ _ s pk) by reflexivity. }
  split; [|split].
  - intros Hel. now rewrite Hbody, Hel.
  - intros Hel. now rewrite Hbody, Hel.
  - intros Hagree k Hk. rewrite Hbody.
    rewrite parentBlockOf_outcome, Ha in Hk.
    destruct (type (anchor sel)) eqn:Hty.
    + destruct (isElement a) eqn:Hel.
      { destruct Hagree as [_ Hagree]. now specialize (Hagree eq_refl). }
      destruct (__parent a) as [pk|]; [|done].
      destruct (_nodeMap s !! pk); [|done]. now injection Hk as <-.
    + destruct Hagree as [Hagree _]. rewrite (Hagree eq_refl).
      now injection Hk as <-.
Qed.

Lemma formatElement_target_witness :
  @commandListener caretCore (fun _ _ => throw TypeError) "formatElement"
    (VString [99%N]) (paragraphDocument 2)
  = (liftOp (@setFormat caretCore 1%N (VString [99%N])) ;;; ret true)
      (paragraphDocument 2).
Proof.
  destruct (@formatElement_target caretCore (fun _ _ => throw TypeError)
              (VString [99%N]) (paragraphDocument 2)
              (mkSelection (mkPoint 2%N 0 text) (mkPoint 2%N 0 text))
              (mkNode TextNode (Some 1%N) [] [97%N] 0) eq_refl eq_refl)
    as (_ & _ & Hsame).
  apply Hsame; [|reflexivity]. split; discriminate.
Defined.

(** X15.  [outdentContent] in a tab-accepting block reads the text by a
    raw index.  Whenever the anchor offset is not within
    [1 .. length of the text], at or below 0 or past the end, there is
    no code unit at [offset - 1]: the listener returns [true] without
    re-dispatching and without touching the state. *)
Theorem outdentContent_offset_out_of_text `{LexicalCore}
    (exec : string -> value -> M bool) payload s sel k n :
  _selection s = Some sel ->
  outcome (parentBlockOf (anchor sel) s) = Ok k ->
  _nodeMap s !! k = Some n ->
  acceptsTab n = true ->
  (offset (anchor sel) <= 0
   \/ Z.of_nat (length (getTextContent (key (anchor sel)) s))
      < offset (anchor sel)) ->
  commandListener exec "outdentContent" payload s = mkRun [] (Ok true) s.
Proof.
  intros E Hk Hn Ht Hout.
  rewrite (listener_outdentContent _ _ _ sel k n) by done.
  rewrite Ht.
  assert (Hc : charAt (getTextContent (key (anchor sel)) s)
                 (offset (anchor sel) - 1) = None).
  { unfold charAt.
    destruct (Z.ltb_spec (offset (anchor sel) - 1) 0); [reflexivity|].
    apply nth_error_None. lia. }
  now rewrite Hc.
Qed.

Lemma outdentContent_offset_out_of_text_witness :
  let s := mkEditorState (_nodeMap (codeDocument [tab] 0))
             (Some (mkSelection (mkPoint 2%N 5 text) (mkPoint 2%N 5 text))) in
  @commandListener caretCore (fun _ _ => throw TypeError) "outdentContent"
    VUndefined s
  = mkRun [] (Ok true) s.
Proof.
  apply (@outdentContent_offset_out_of_text caretCore
           (fun _ _ => throw TypeError) VUndefined
           (mkEditorState (_nodeMap (codeDocument [tab] 0))
              (Some (mkSelection (mkPoint 2%N 5 text) (mkPoint 2%N 5 text))))
           (mkSelection (mkPoint 2%N 5 text) (mkPoint 2%N 5 text))
           1%N (mkNode CodeNode (Some 0%N) [2%N] [] 0));
    try reflexivity.
  right. vm_compute. reflexivity.
Defined.

(** X16.  With only this listener registered, [keyTab] is the event
    consumed followed by the command it stands for: [outdentContent]
    when shift is held, [indentContent] otherwise, dispatched with no
    payload.  Result and state are those of that command dispatched on
    its own. *)
Theorem keyTab_is_indent_or_outdent `{LexicalCore} e s sel :
  _selection s = Some sel ->
  let r := execCommand maxDepth "keyTab" (VEvent e) s in
  let r' := execCommand maxDepth
              (if shiftKey e then "outdentContent" else "indentContent")
              VUndefined s in
  effects r = PreventDefault e :: effects r'
  /\ outcome r = outcome r'
  /\ state r = state r'.
Proof.
  intros E. cbv zeta.
  change (execCommand maxDepth "keyTab" (VEvent e) s)
    with (commandListener (execCommand 2) "keyTab" (VEvent e) s).
  rewrite (listener_keyTab _ _ _ sel E), bind_emit.
  assert (Hsame : forall type_ : string,
             type_ = "outdentContent" \/ type_ = "indentContent" ->
             execCommand 2 type_ VUndefined s
             = execCommand maxDepth type_ VUndefined s).
  { intros type_ Ht. symmetry. apply (execCommand_deeper 2).
    destruct Ht as [-> | ->]; vm_compute; lia. }
  cbv beta.
  destruct (shiftKey e); rewrite Hsame by auto; repeat split.
Qed.

Lemma keyTab_is_indent_or_outdent_witness :
  state (@execCommand caretCore maxDepth "keyTab" (VEvent shiftTab)
           (paragraphDocument 3))
  = state (@execCommand caretCore maxDepth "outdentContent" VUndefined
             (paragraphDocument 3)).
Proof.
  apply (@keyTab_is_indent_or_outdent caretCore shiftTab (paragraphDocument 3)
           (mkSelection (mkPoint 2%N 0 text) (mkPoint 2%N 0 text))).
  reflexivity.
Defined.

(** ** Seeding, composed *)

Section SeedingComposed.
Variable document : Document.

Lemma initEditor_run_kept ed rn first :
  _nodeMap (_editorState ed) !! rootKey = Some rn ->
  firstChildOf (_editorState ed) rn = Some first ->
  initEditor document ed
  = mkCompleted [Log "initEditor"; Commit (_editorState ed)] (Ok tt) ed.
Proof.
  intros Hroot Hfirst. unfold initEditor, update, log.
  rewrite bind_emit.
  rewrite (bind_read _ _ _ rootKey (getRoot_run _ rn Hroot)).
  rewrite (bind_read _ _ _ _ (getFirstChild_run _ _ rn Hroot)).
  rewrite Hfirst. simpl. now destruct ed.
Qed.

(** After seeding an element that had no children, the seed paragraph
    is its first child. *)
Lemma seeded_first_child root n selection s :
  _nodeMap s !! root = Some n ->
  __children n = [] ->
  let s' := seeded root n selection s in
  let paragraph := fresh (dom (_nodeMap s)) in
  _nodeMap s' !! root = Some (withChildren [paragraph] n)
  /\ firstChildOf s' (withChildren [paragraph] n) = Some paragraph.
Proof.
  intros Hn Hnil. cbv zeta.
  assert (Hp : fresh (dom (_nodeMap s)) <> root)
    by (eapply fresh_key_not_in, Hn).
  unfold seeded. simpl. rewrite Hnil. simpl. split.
  - apply lookup_insert_eq.
  - unfold firstChildOf. simpl.
    rewrite lookup_insert_ne by done. now rewrite lookup_insert_eq.
Qed.

Lemma initEditor_twice_editor ed rn :
  _nodeMap (_editorState ed) !! rootKey = Some rn ->
  __children rn = [] \/ is_Some (firstChildOf (_editorState ed) rn) ->
  editor (initEditor document (editor (initEditor document ed)))
  = editor (initEditor document ed).
Proof.
  intros Hroot Hshape.
  destruct (firstChildOf (_editorState ed) rn) as [first|] eqn:Hfirst.
  - rewrite (initEditor_run_kept ed rn first Hroot Hfirst). simpl.
    now rewrite (initEditor_run_kept ed rn first Hroot Hfirst).
  - destruct Hshape as [Hnil|[x Hx]]; [|done].
    rewrite (initEditor_run_seeded document ed rn Hroot Hfirst). simpl.
    match goal with
    | |- editor (initEditor _ (mkEditor (seeded _ _ ?sel ?s) ?r)) = _ =>
        destruct (seeded_first_child rootKey rn sel s Hroot Hnil) as [Hr Hf];
        now rewrite (initEditor_run_kept (mkEditor (seeded rootKey rn sel s) r)
                       _ _ Hr Hf)
    end.
Qed.

Lemma initEditor_after_clearEditor_editor ed callbackFn rn :
  _nodeMap (_editorState ed) !! rootKey = Some rn ->
  editor (initEditor document (editor (clearEditor document ed callbackFn)))
  = editor (clearEditor document ed callbackFn).
Proof.
  intros Hroot.
  rewrite (clearEditor_run document ed callbackFn rn Hroot). simpl.
  set (s1 := cleared rootKey rn (_editorState ed)).
  assert (Hroot1 : _nodeMap s1 !! rootKey = Some (withChildren [] rn))
    by apply lookup_insert_eq.
  match goal with
  | |- editor (initEditor _ (mkEditor (seeded _ _ ?sel _) ?r)) = _ =>
      destruct (seeded_first_child rootKey (withChildren [] rn) sel s1
                  Hroot1 eq_refl) as [Hr Hf];
      now rewrite (initEditor_run_kept
                     (mkEditor (seeded rootKey (withChildren [] rn) sel s1) r)
                     _ _ Hr Hf)
  end.
Qed.
End SeedingComposed.

(** X17.  [initEditor] is idempotent: on an editor whose root has no
    children or has its first child in the snapshot, a second call
    leaves the editor exactly as the first call left it.  (A root whose
    first child key points at no node is seeded again on every call.) *)
Theorem initEditor_idempotent document ed rn :
  _nodeMap (_editorState ed) !! rootKey = Some rn ->
  __children rn = [] \/ is_Some (firstChildOf (_editorState ed) rn) ->
  editor (initEditor document (editor (initEditor document ed)))
  = editor (initEditor document ed).
Proof. apply initEditor_twice_editor. Qed.

Lemma initEditor_idempotent_witness :
  let doc := mkDocument (Some 7%N) in
  let ed := mkEditor emptyDocument (Some 7%N) in
  editor (initEditor doc (editor (initEditor doc ed)))
  = editor (initEditor doc ed).
Proof.
  apply (initEditor_idempotent (mkDocument (Some 7%N))
           (mkEditor emptyDocument (Some 7%N))
           (mkNode RootNode None [] [] 0));
    [reflexivity | now left].
Defined.

(** The case the precondition of X17 leaves out: a first child key
    that points at no node makes [getFirstChild] answer [null], so each
    call appends one more paragraph. *)
Example initEditor_dangling_first_child :
  let s := mkEditorState (<[0%N := mkNode RootNode None [5%N] [] 0]> ∅) None in
  let ed1 := editor (initEditor (mkDocument None) (mkEditor s None)) in
  let ed2 := editor (initEditor (mkDocument None) ed1) in
  (length <$> (__children <$> _nodeMap (_editorState ed1) !! rootKey),
   length <$> (__children <$> _nodeMap (_editorState ed2) !! rootKey))
  = (Some 2%nat, Some 3%nat).
Proof. vm_compute. reflexivity. Qed.

(** X18.  After [clearEditor], [initEditor] has nothing to do: the root
    already has its seed paragraph, and the editor comes back as
    [clearEditor] left it, whatever the tree was before the clear. *)
Theorem initEditor_after_clearEditor document ed callbackFn rn :
  _nodeMap (_editorState ed) !! rootKey = Some rn ->
  editor (initEditor document (editor (clearEditor document ed callbackFn)))
  = editor (clearEditor document ed callbackFn).
Proof. apply initEditor_after_clearEditor_editor. Qed.

Lemma initEditor_after_clearEditor_witness :
  let doc := mkDocument None in
  let ed := mkEditor (codeDocument [tab; 97%N] 1) (Some 4%N) in
  editor (initEditor doc (editor (clearEditor doc ed None)))
  = editor (clearEditor doc ed None).
Proof.
  apply (initEditor_after_clearEditor (mkDocument None)
           (mkEditor (codeDocument [tab; 97%N] 1) (Some 4%N)) None
           (mkNode RootNode None [1%N] [] 0)).
  reflexivity.
Defined.

(** X19.  [clearEditor] never leaves the selection on a node it removed.
    After the clear the selection is either absent or collapsed inside
    the new seed paragraph, the root's only child; it is inside the
    paragraph exactly when there was a selection before or the active
    element is the editor's root element. *)
Theorem clearEditor_selection document ed callbackFn rn :
  _nodeMap (_editorState ed) !! rootKey = Some rn ->
  let s := _editorState ed in
  let s' := _editorState (editor (clearEditor document ed callbackFn)) in
  exists paragraph,
    __children <$> _nodeMap s' !! rootKey = Some [paragraph]
    /\ (_selection s' = Some (collapsedIn paragraph) \/ _selection s' = None)
    /\ (_selection s' = Some (collapsedIn paragraph)
        <-> is_Some (_selection s) \/ hostIsFocused document ed = true).
Proof.
  intros Hroot. cbv zeta.
  rewrite (clearEditor_run document ed callbackFn rn Hroot). simpl.
  set (s1 := cleared rootKey rn (_editorState ed)).
  exists (fresh (dom (_nodeMap s1))).
  split; [now rewrite lookup_insert_eq|].
  unfold selectsParagraph. change (_selection s1) with (_selection (_editorState ed)).
  destruct (_selection (_editorState ed)) as [sel|]; simpl.
  - split; [now left|]. split; [eauto|done].
  - destruct (hostIsFocused document ed); simpl.
    + split; [now left|]. split; [auto|done].
    + split; [now right|]. split; [done|].
      intros [[x Hx]|Hx]; done.
Qed.

Lemma clearEditor_selection_witness :
  let c := clearEditor (mkDocument None)
             (mkEditor (paragraphDocument 3) None) None in
  exists paragraph,
    __children <$> _nodeMap (_editorState (editor c)) !! rootKey
    = Some [paragraph]
    /\ _selection (_editorState (editor c)) = Some (collapsedIn paragraph).
Proof.
  destruct (clearEditor_selection (mkDocument None)
              (mkEditor (paragraphDocument 3) None) None
              (mkNode RootNode None [1%N] [] 0) eq_refl)
    as (paragraph & Hc & _ & Hsel).
  exists paragraph. split; [exact Hc|].
  apply Hsel. left. eexists. reflexivity.
Defined.

(** ** The event table *)

(** X20.  Whatever [CAN_USE_BEFORE_INPUT] is, the [events] table names
    eleven events, no event twice, so no event gets two handlers.  The
    first ten entries do not depend on the flag; [beforeinput] is
    subscribed exactly when the flag holds and [drop] exactly when it
    does not, each with its own handler. *)
Theorem events_table (CAN_USE_BEFORE_INPUT : bool) :
  let names := map fst (events CAN_USE_BEFORE_INPUT) in
  length names = 11%nat
  /\ NoDup names
  /\ firstn 10 (events CAN_USE_BEFORE_INPUT) = firstn 10 (events true)
  /\ (In ("beforeinput", onBeforeInput) (events CAN_USE_BEFORE_INPUT)
      <-> CAN_USE_BEFORE_INPUT = true)
  /\ (In "beforeinput" names <-> CAN_USE_BEFORE_INPUT = true)
  /\ (In ("drop", onDropPolyfill) (events CAN_USE_BEFORE_INPUT)
      <-> CAN_USE_BEFORE_INPUT = false)
  /\ (In "drop" names <-> CAN_USE_BEFORE_INPUT = false).
Proof.
  destruct CAN_USE_BEFORE_INPUT; cbv zeta;
    (split; [reflexivity|]); (split; [apply (bool_decide_unpack _); vm_compute; exact I|]);
    (split; [reflexivity|]);
    repeat split; intros Hx; try reflexivity; try discriminate;
    try (cbn; repeat first [left; reflexivity | right]);
    cbn in Hx; exfalso;
    repeat (destruct Hx as [Hx|Hx]; [discriminate Hx|]); exact Hx.
Qed.

(** ** An editor without a selection *)

Lemma dispatchCommand_null_selection `{LexicalCore} type_ payload ed :
  _selection (_editorState ed) = None ->
  dispatchCommand type_ payload ed
  = mkCompleted [Commit (_editorState ed)] (Ok false) ed.
Proof.
  intros Hnull. unfold dispatchCommand, update.
  change (execCommand maxDepth type_ payload (_editorState ed))
    with (commandListener (execCommand 2) type_ payload (_editorState ed)).
  rewrite listener_null_selection by done. simpl. now destruct ed.
Qed.

(** X21.  An editor without a selection is inert under this listener:
    every command of any sequence is answered [false], and after the
    whole sequence the editor is exactly as it was. *)
Theorem no_selection_inert `{LexicalCore} commands ed :
  _selection (_editorState ed) = None ->
  dispatchAll commands ed = ed
  /\ Forall (fun c => result (dispatchCommand (fst c) (snd c) ed) = Ok false)
            commands.
Proof.
  intros Hnull. split.
  - induction commands as [|[type_ payload] rest IH]; [reflexivity|].
    simpl. now rewrite dispatchCommand_null_selection.
  - apply List.Forall_forall. intros [type_ payload] _. simpl.
    now rewrite dispatchCommand_null_selection.
Qed.

Lemma no_selection_inert_witness :
  @dispatchAll caretCore
    [("insertText", VString [97%N]); ("keyEnter", VEvent plainKey);
     ("indentContent", VUndefined)]
    (mkEditor emptyDocument None)
  = mkEditor emptyDocument None.
Proof.
  apply (@no_selection_inert caretCore). reflexivity.
Defined.

(** ** Key commands, down to the primitives *)

Lemma execCommand_prim `{LexicalCore} depth s sel :
  _selection s = Some sel ->
  (forall payload,
     execCommand (S depth) "insertLineBreak" payload s
     = (liftOp (insertLineBreak payload) ;;; ret true) s)
  /\ (forall payload,
        execCommand (S depth) "insertParagraph" payload s
        = (liftOp insertParagraph ;;; ret true) s).
Proof.
  intros E. split; intros payload;
    change (execCommand (S depth) ?t payload s)
      with (commandListener (execCommand depth) t payload s);
    enter_case sel E; reflexivity.
Qed.

(** X22.  With only this listener registered and a selection present,
    the three editing keys end in one call of a selection primitive
    after the event is consumed: backspace in
    [selection.deleteCharacter(true)], delete in
    [selection.deleteCharacter(false)], enter in
    [selection.insertLineBreak(undefined)] when shift is held and in
    [selection.insertParagraph()] otherwise.  Each reports handled when
    the primitive returns; when it throws, the event has been consumed
    all the same. *)
Theorem editing_keys_reach_primitives `{LexicalCore} e s sel :
  _selection s = Some sel ->
  execCommand maxDepth "keyBackspace" (VEvent e) s
  = (emit (PreventDefault e) ;;;
     liftOp (deleteCharacter (VBool true)) ;;; ret true) s
  /\ execCommand maxDepth "keyDelete" (VEvent e) s
     = (emit (PreventDefault e) ;;;
        liftOp (deleteCharacter (VBool false)) ;;; ret true) s
  /\ execCommand maxDepth "keyEnter" (VEvent e) s
     = (emit (PreventDefault e) ;;;
        (if shiftKey e then liftOp (insertLineBreak VUndefined)
         else liftOp insertParagraph) ;;; ret true) s.
Proof.
  intros E.
  destruct (execCommand_prim 1 s sel E) as [Hbreak Hpara].
  pose proof (Hbreak VUndefined) as Hb. pose proof (Hpara VUndefined) as Hp.
  pose proof (execCommand_deleteCharacter 1 (VBool true) s sel E) as Ht.
  pose proof (execCommand_deleteCharacter 1 (VBool false) s sel E) as Hf.
  clear Hbreak Hpara.
  split; [|split].
  - change (execCommand maxDepth "keyBackspace" (VEvent e) s)
      with (commandListener (execCommand 2) "keyBackspace" (VEvent e) s).
    rewrite (listener_keyBackspace _ _ _ sel E), !bind_emit. cbv beta.
    now rewrite Ht.
  - change (execCommand maxDepth "keyDelete" (VEvent e) s)
      with (commandListener (execCommand 2) "keyDelete" (VEvent e) s).
    rewrite (listener_keyDelete _ _ _ sel E), !bind_emit. cbv beta.
    now rewrite Hf.
  - change (execCommand maxDepth "keyEnter" (VEvent e) s)
      with (commandListener (execCommand 2) "keyEnter" (VEvent e) s).
    rewrite (listener_keyEnter _ _ _ sel E), !bind_emit. cbv beta.
    destruct (shiftKey e); [now rewrite Hb | now rewrite Hp].
Qed.

Lemma editing_keys_reach_primitives_witness :
  let r := @execCommand caretCore maxDepth "keyBackspace" (VEvent plainKey)
             (codeDocument [97%N; 98%N] 2) in
  (effects r, outcome r, __text <$> _nodeMap (state r) !! 2%N)
  = ([PreventDefault plainKey], Ok true, Some [97%N]).
Proof.
  destruct (@editing_keys_reach_primitives caretCore plainKey
              (codeDocument [97%N; 98%N] 2)
              (mkSelection (mkPoint 2%N 2 text) (mkPoint 2%N 2 text))
              eq_refl) as (Hback & _).
  cbv zeta. rewrite Hback. vm_compute. reflexivity.
Defined.
